(** * exploreLyon: convex hulls of clusters and top tags of clusters

    A shallow embedding of [utils/map.py] ([convex_hull_xy],
    [create_cluster_map]) and of [utils/tag.py] ([get_cluster_top_tags]),
    with the properties that the specification states about them.

    Coordinates are Python numbers.  [Hull] takes them in [Z]: on Python
    integers every operation of [convex_hull_xy] (tuple comparison,
    subtraction, multiplication, the test [<= 0]) is exact, and that is the
    arithmetic the specification reasons with ("exact cross-product
    comparisons").  What [Hull] proves of the order of the points, of their
    number and of the run of the loops does not depend on the arithmetic.
    What depends on the sign of a cross product does: [Binary64] takes the
    function on the floats of the machine, shows where rounding breaks such
    a property and proves it for the inputs on which no rounding shows. *)

From Stdlib Require Import ZArith Lia.
From Stdlib Require Import Floats.PrimFloat Floats.FloatOps Floats.SpecFloat.
From stdpp Require Import base decidable list sorting gmap strings pretty.

(** Float literals are written in decimal, as in Python, and stand for the
    nearest binary64 number, as in Python. *)
#[local] Set Warnings "-inexact-float".

Local Open Scope Z_scope.

Module Hull.

(** ** Data model *)

(** A point is a Python tuple [(x, y)]. *)
Definition point : Type := (Z * Z)%type.

(** [cross(o, a, b)] of the source, a closure of [convex_hull_xy], in exact
    arithmetic; [Binary64.cross] is the same in floats. *)
Definition cross (o a b : point) : Z :=
  (a.1 - o.1) * (b.2 - o.2) - (a.2 - o.2) * (b.1 - o.1).

(** Python compares tuples lexicographically: [p < q]. *)
Definition tuple_lt (p q : point) : Prop :=
  p.1 < q.1 ∨ (p.1 = q.1 ∧ p.2 < q.2).

(** [p <= q] on tuples. *)
Definition tuple_le (p q : point) : Prop :=
  p.1 < q.1 ∨ (p.1 = q.1 ∧ p.2 ≤ q.2).

Global Instance tuple_lt_dec p q : Decision (tuple_lt p q).
Proof. unfold tuple_lt. apply _. Defined.

Global Instance tuple_le_dec p q : Decision (tuple_le p q).
Proof. unfold tuple_le. apply _. Defined.

(** [set(points_xy)]: a finite set, whose iteration order Python leaves
    unspecified. *)
Definition py_set (points_xy : list point) : gset point :=
  list_to_set points_xy.

(** [sorted(s)] for a set [s] of tuples: the elements in ascending order. *)
Definition sorted (s : gset point) : list point :=
  merge_sort tuple_le (elements s).

(** ** The monotone chain

    [lower] and [upper] are Python lists used as stacks: [append] pushes at
    the end and [pop] removes the end.  The embedding keeps such a stack with
    its top first: [st = a :: o :: _] stands for the Python list with
    [st[-1] = a] and [st[-2] = o]. *)

(** [while len(st) >= 2 and cross(st[-2], st[-1], p) <= 0: st.pop()] *)
Fixpoint prune (st : list point) (p : point) : list point :=
  match st with
  | a :: ((o :: _) as st') =>
      if bool_decide (cross o a p ≤ 0) then prune st' p else st
  | _ => st
  end.

(** The body of either [for] loop: prune, then [st.append(p)]. *)
Definition push (st : list point) (p : point) : list point :=
  p :: prune st p.

(** [st = []; for p in pts: ...], the stack that the loop leaves, top first. *)
Definition chain (pts : list point) : list point :=
  foldl push [] pts.

(** [st[:-1]] as a Python list (first element first) of a stack kept top
    first: drop the top, then read from the bottom up. *)
Definition but_last (st : list point) : list point :=
  reverse (tail st).

Definition convex_hull_xy (points_xy : list point) : list point :=
  let pts := sorted (py_set points_xy) in
  if decide (length pts < 3)%nat then []
  else
    let lower := chain pts in
    let upper := chain (reverse pts) in
    but_last lower ++ but_last upper.

(** ** The same function with Python's failure paths

    The source indexes and pops its lists, which Python answers with an
    [IndexError] when the list is too short, and it loops with [while].
    [convex_hull_xy_run] follows the source statement by statement on
    Python lists kept first element first, with these paths explicit: a
    run returns a value, raises, or is cut off when its fuel (a bound on the
    number of iterations of one [while] loop) runs out. *)

Inductive exn : Type := IndexError.

Inductive outcome (A : Type) : Type :=
  | Returned (v : A)
  | Raised (e : exn)
  | OutOfFuel.

Arguments Returned {A} v.
Arguments Raised {A} e.
Arguments OutOfFuel {A}.

Global Instance outcome_ret : MRet outcome := λ A v, Returned v.

Global Instance outcome_bind : MBind outcome := λ A B f m,
  match m with
  | Returned v => f v
  | Raised e => Raised e
  | OutOfFuel => OutOfFuel
  end.

(** [len(l)] *)
Definition py_len {A} (l : list A) : Z := Z.of_nat (length l).

(** [l[i]]: a negative index counts from the end; out of range raises. *)
Definition py_getitem {A} (l : list A) (i : Z) : outcome A :=
  let n := py_len l in
  let j := if bool_decide (i < 0) then n + i else i in
  if bool_decide (0 ≤ j < n) then
    match l !! Z.to_nat j with
    | Some x => Returned x
    | None => Raised IndexError
    end
  else Raised IndexError.

(** [l.pop()], for the list it leaves: popping the empty list raises. *)
Definition py_pop {A} (l : list A) : outcome (list A) :=
  match l with
  | [] => Raised IndexError
  | _ => Returned (take (length l - 1) l)
  end.

(** [l.append(x)] *)
Definition py_append {A} (l : list A) (x : A) : list A := l ++ [x].

(** [l[:-1]], which never raises. *)
Definition py_but_last {A} (l : list A) : list A := take (length l - 1) l.

(** [while len(st) >= 2 and cross(st[-2], st[-1], p) <= 0: st.pop()] *)
Fixpoint while_pop (fuel : nat) (st : list point) (p : point)
  : outcome (list point) :=
  match fuel with
  | O => OutOfFuel
  | S fuel' =>
      if bool_decide (2 ≤ py_len st) then
        o ← py_getitem st (-2);
        a ← py_getitem st (-1);
        if bool_decide (cross o a p ≤ 0) then
          st' ← py_pop st; while_pop fuel' st' p
        else mret st
      else mret st
  end.

(** [for p in pts: while ...: st.pop(); st.append(p)] *)
Fixpoint for_points (fuel : nat) (st pts : list point)
  : outcome (list point) :=
  match pts with
  | [] => mret st
  | p :: pts' =>
      st' ← while_pop fuel st p;
      for_points fuel (py_append st' p) pts'
  end.

Definition convex_hull_xy_run (fuel : nat) (points_xy : list point)
  : outcome (list point) :=
  let pts := sorted (py_set points_xy) in
  if bool_decide (py_len pts < 3) then mret []
  else
    lower ← for_points fuel [] pts;
    upper ← for_points fuel [] (reverse pts);
    mret (py_but_last lower ++ py_but_last upper).

Example scenario_square :
  convex_hull_xy [(0,0); (4,0); (4,4); (0,4); (2,2)] = [(0,0); (4,0); (4,4); (0,4)].
Proof. vm_compute. reflexivity. Qed.

Example scenario_collinear :
  convex_hull_xy [(0,0); (1,0); (2,0)] = [(0,0); (2,0)].
Proof. vm_compute. reflexivity. Qed.


(** ** Geometry of the turn test *)

(** The sweep order: [pts] is scanned in ascending tuple order for the lower
    chain ([s = 1]) and in descending order for the upper chain ([s = -1]).
    [sweep_lt s a b] says that the scan of direction [s] meets [a] before
    [b]. *)
Definition sweep_lt (s : Z) (a b : point) : Prop :=
  tuple_lt (s * a.1, s * a.2) (s * b.1, s * b.2).

(** A stack, top first, is convex when any three of its points, taken from
    the bottom up, make a strict left turn. *)
Definition convex (st : list point) : Prop :=
  ∀ a b c, [a; b; c] `sublist_of` st → 0 < cross c b a.

(** Every point of [Q] lies on or to the left of every edge of the stack. *)
Fixpoint supports (Q st : list point) : Prop :=
  match st with
  | a :: ((b :: _) as st') => (∀ q, q ∈ Q → 0 ≤ cross b a q) ∧ supports Q st'
  | _ => True
  end.

Lemma sweep_lt_asc a b : sweep_lt 1 a b ↔ tuple_lt a b.
Proof. unfold sweep_lt, tuple_lt; simpl; lia. Qed.

Lemma sweep_lt_desc a b : sweep_lt (-1) a b ↔ tuple_lt b a.
Proof. unfold sweep_lt, tuple_lt; simpl; lia. Qed.

Lemma cross_rotate o a b : cross a b o = cross o a b.
Proof. unfold cross; ring. Qed.

Lemma cross_swap o a b : cross o b a = - cross o a b.
Proof. unfold cross; ring. Qed.

Lemma cross_flip o a b : cross b a o = - cross o a b.
Proof. unfold cross; ring. Qed.

Lemma cross_same_l o a : cross o o a = 0.
Proof. unfold cross; ring. Qed.

Lemma cross_same_r o a : cross o a a = 0.
Proof. unfold cross; ring. Qed.

Lemma cross_same_lr o a : cross o a o = 0.
Proof. unfold cross; ring. Qed.

(** Two directions [d] and [e] of the same half plane with [d × e = 0] are
    parallel and point the same way, so a third direction turns the same
    way from both. *)
Lemma det_parallel dx dy ex ey fx fy :
  (0 < dx ∨ dx = 0 ∧ 0 < dy) → (0 < ex ∨ ex = 0 ∧ 0 < ey) →
  dx * ey - dy * ex = 0 → 0 < dx * fy - dy * fx → 0 < ex * fy - ey * fx.
Proof.
  intros Hd He H0 H1.
  assert (Ix : (ex * fy - ey * fx) * dx
               = (dx * fy - dy * fx) * ex - (dx * ey - dy * ex) * fx) by ring.
  assert (Iy : (ex * fy - ey * fx) * dy
               = (dx * fy - dy * fx) * ey - (dx * ey - dy * ex) * fy) by ring.
  rewrite H0 in Ix, Iy.
  destruct Hd as [Hd|[-> Hd]].
  - assert (0 < ex) by nia. nia.
  - assert (ex = 0) by nia. subst ex. nia.
Qed.

Section Sweep.
Variable s : Z.
Hypothesis Hs : s = 1 ∨ s = -1.

Local Abbreviation lt := (sweep_lt s).

Local Ltac geo :=
  unfold sweep_lt, tuple_lt, cross in *; simpl in *; destruct Hs; subst s.

Lemma sweep_lt_irrefl a : ¬ lt a a.
Proof. geo; lia. Qed.

Lemma sweep_lt_trans a b c : lt a b → lt b c → lt a c.
Proof. geo; lia. Qed.

Lemma sweep_lt_asym a b : lt a b → lt b a → False.
Proof. geo; lia. Qed.

Lemma sweep_lt_trichotomy a b : lt a b ∨ a = b ∨ lt b a.
Proof.
  destruct a as [a1 a2], b as [b1 b2].
  assert (a1 < b1 ∨ (a1 = b1 ∧ a2 < b2) ∨ (a1 = b1 ∧ a2 = b2)
          ∨ (a1 = b1 ∧ b2 < a2) ∨ b1 < a1) as Hc by lia.
  destruct Hc as [?|[?|[[-> ->]|[?|?]]]]; [| |by auto| |]; geo; lia.
Qed.

(** Four points met in this order: if [x y a] and [y a p] turn left, so do
    [x y p] and [x a p]. *)
Lemma left_turn_extend x y a p :
  lt x y → lt y a → lt a p → 0 < cross x y a → 0 < cross y a p →
  0 < cross x y p ∧ 0 < cross x a p.
Proof.
  destruct x as [x1 x2], y as [y1 y2], a as [a1 a2], p as [p1 p2].
  geo; split; nia.
Qed.

(** Popping [b]: a point [q] beyond [b] stays left of the new edge. *)
Lemma pop_keeps_beyond a b p q :
  0 ≤ cross a b q → 0 ≤ cross b p q → cross a b p ≤ 0 → 0 ≤ cross a p q.
Proof.
  destruct a as [a1 a2], b as [b1 b2], p as [p1 p2], q as [q1 q2].
  unfold cross; simpl; nia.
Qed.

(** Popping [b]: a point [q] between [a] and [b] stays left of the new
    edge. *)
Lemma pop_keeps_between a b p q :
  lt a q → lt q b → lt b p →
  0 ≤ cross a b q → cross a b p ≤ 0 → 0 ≤ cross a p q.
Proof.
  destruct a as [a1 a2], b as [b1 b2], p as [p1 p2], q as [q1 q2].
  geo; nia.
Qed.

(** Pushing [p] above [a]: a point [q] met before [a] that is left of the
    edge below [a] is left of the new edge too. *)
Lemma push_keeps_before o a p q :
  lt q a → lt o a → lt a p →
  0 < cross o a p → 0 ≤ cross o a q → 0 ≤ cross a p q.
Proof.
  destruct o as [o1 o2], a as [a1 a2], p as [p1 p2], q as [q1 q2].
  geo; nia.
Qed.

(** A vertex [c1] that lies on the segment from [c0] to [c1'] and turns
    left towards [c2] leaves [c1'] strictly to the right of its edge. *)
Lemma inner_vertex_cuts c0 c1 c1' c2 :
  lt c0 c1 → lt c1 c1' → cross c0 c1 c1' = 0 → 0 < cross c0 c1 c2 →
  cross c1 c2 c1' < 0.
Proof.
  destruct c0 as [x1 x2], c1 as [y1 y2], c1' as [a1 a2], c2 as [p1 p2].
  geo; intros Hd He H0 H1.
  - pose proof (det_parallel (y1 - x1) (y2 - x2) (a1 - y1) (a2 - y2)
                  (p1 - y1) (p2 - y2)). lia.
  - pose proof (det_parallel (x1 - y1) (x2 - y2) (y1 - a1) (y2 - a2)
                  (y1 - p1) (y2 - p2)). lia.
Qed.


(** *** Lists of three and of two inside a stack *)

Lemma sublist_pair_cons (a b x : point) t :
  [a; b] `sublist_of` x :: t ↔ (a = x ∧ b ∈ t) ∨ [a; b] `sublist_of` t.
Proof.
  rewrite sublist_cons_r. split.
  - intros [?|(l' & [= -> <-] & Hl)]; [by right|left].
    split; [done|]. by apply singleton_sublist_l.
  - intros [[-> Hb]|?]; [right|by left].
    eexists; split; [done|]. by apply singleton_sublist_l.
Qed.

Lemma sublist_triple_cons (a b c x : point) t :
  [a; b; c] `sublist_of` x :: t ↔
    (a = x ∧ [b; c] `sublist_of` t) ∨ [a; b; c] `sublist_of` t.
Proof.
  rewrite sublist_cons_r. split.
  - intros [?|(l' & [= -> <-] & Hl)]; [by right|by left].
  - intros [[-> Hb]|?]; [right; eauto|by left].
Qed.

Lemma convex_cons a st : convex (a :: st) → convex st.
Proof. intros H x y z Hs'. apply H. by apply sublist_cons. Qed.

Lemma convex_suffix st st' : st' `suffix_of` st → convex st → convex st'.
Proof.
  intros [k ->] H x y z Hs'. apply H. by apply sublist_inserts_l.
Qed.

Lemma convex_short st : (length st < 3)%nat → convex st.
Proof.
  intros Hl x y z Hs'. apply sublist_length in Hs'. simpl in Hs'. lia.
Qed.

Lemma supports_suffix Q st st' :
  st' `suffix_of` st → supports Q st → supports Q st'.
Proof.
  intros [k ->]. induction k as [|x k IH]; [done|].
  intros H. apply IH. simpl in H. destruct (k ++ st'); [done|]. apply H.
Qed.

Lemma supports_subseteq Q Q' st : Q' ⊆ Q → supports Q st → supports Q' st.
Proof.
  intros HQ. induction st as [|a [|b t] IH]; [done..|].
  intros [H1 H2]. split; [|by apply IH]. intros q Hq. apply H1, HQ, Hq.
Qed.

(** The stack is met in descending sweep order from its top. *)
Local Abbreviation desc st := (StronglySorted (flip lt) st).

Lemma desc_pair st a b : desc st → [a; b] `sublist_of` st → lt b a.
Proof.
  induction 1 as [|x t Ht IH Hx]; [by intros ?%sublist_nil_r|].
  rewrite sublist_pair_cons. intros [[-> Hb]|?]; [|by auto].
  rewrite Forall_forall in Hx. by apply Hx.
Qed.

Lemma desc_suffix st st' : st' `suffix_of` st → desc st → desc st'.
Proof. intros [k ->]. apply StronglySorted_app_1_r. Qed.

(** *** The pruning loop *)

Lemma prune_cons a o t p :
  prune (a :: o :: t) p
  = if bool_decide (cross o a p ≤ 0) then prune (o :: t) p else a :: o :: t.
Proof. reflexivity. Qed.

Lemma prune_suffix st p : prune st p `suffix_of` st.
Proof.
  induction st as [|a [|o t] IH]; [done..|].
  rewrite prune_cons. case_bool_decide; [|done]. by apply suffix_cons_r.
Qed.

Lemma prune_last st p : last (prune st p) = last st.
Proof.
  induction st as [|a [|o t] IH]; [done..|].
  rewrite prune_cons. case_bool_decide; [|done]. by rewrite IH.
Qed.

Lemma prune_turn st p a o t : prune st p = a :: o :: t → 0 < cross o a p.
Proof.
  induction st as [|a' [|o' t'] IH]; [done..|].
  rewrite prune_cons. case_bool_decide.
  - apply IH.
  - intros [= -> -> ->]. lia.
Qed.

(** Pushing [p] on a convex stack whose top edge turns left towards [p]. *)
Lemma convex_push p st :
  desc (p :: st) → convex st →
  (∀ a o t, st = a :: o :: t → 0 < cross o a p) →
  convex (p :: st).
Proof.
  intros Hd Hc Ht. destruct st as [|a [|o t]]; [by apply convex_short; simpl; lia..|].
  specialize (Ht _ _ _ eq_refl).
  assert (Hlt : ∀ y x, [y; x] `sublist_of` p :: a :: o :: t → lt x y)
    by (intros; by eapply desc_pair).
  assert (Hap : lt a p)
    by (apply Hlt, sublist_skip, sublist_skip, sublist_nil_l).
  assert (Hbelow : ∀ y, y ∈ o :: t → lt y a ∧ 0 < cross y a p).
  { intros y Hy.
    assert (lt y a) as Hya.
    { apply Hlt, sublist_cons, sublist_skip. by apply singleton_sublist_l. }
    split; [done|].
    apply elem_of_cons in Hy as [->|Hy]; [done|].
    assert (lt y o).
    { apply Hlt. do 2 apply sublist_cons. apply sublist_skip.
      by apply singleton_sublist_l. }
    assert (lt o a).
    { apply Hlt, sublist_cons. do 2 apply sublist_skip. apply sublist_nil_l. }
    eapply (left_turn_extend y o a p); [done..| |done].
    apply Hc. do 2 apply sublist_skip. by apply singleton_sublist_l. }
  intros x y z. rewrite sublist_triple_cons. intros [[-> Hyz]|Hxyz]; [|by apply Hc].
  apply sublist_pair_cons in Hyz as [[-> Hz]|Hyz]; [by apply Hbelow|].
  assert (y ∈ o :: t) as Hy.
  { eapply elem_of_sublist; [|done]. by constructor. }
  destruct (Hbelow y Hy) as [Hya Hyp].
  eapply (left_turn_extend z y a p); [|done..| |done].
  - apply Hlt. by do 2 apply sublist_cons.
  - apply Hc. by apply sublist_skip.
Qed.

(** While [p] waits to be pushed, every point already met that lies beyond
    the top of the stack is on or to the left of the edge from the top to
    [p]. *)
Definition beyond_ok (P : list point) (p : point) (st : list point) : Prop :=
  ∀ a q, head st = Some a → q ∈ P → lt a q → 0 ≤ cross a p q.

Lemma prune_beyond P p st :
  (∀ q, q ∈ P → lt q p) → st ⊆ P → supports P st →
  beyond_ok P p st → beyond_ok P p (prune st p).
Proof.
  intros HP. induction st as [|b [|a t] IH]; [done..|].
  intros Hsub [Hab Hsup] Hb. rewrite prune_cons. case_bool_decide; [|done].
  apply IH; [set_solver|done|].
  intros a' q [= <-] Hq Haq.
  assert (b ∈ P) as HbP by set_solver.
  destruct (sweep_lt_trichotomy q b) as [Hqb|[->|Hbq]].
  - eapply (pop_keeps_between a b p q); auto.
  - rewrite cross_swap. lia.
  - eapply (pop_keeps_beyond a b p q); auto.
Qed.

Lemma supports_snoc P p st :
  supports P st → convex (p :: st) → supports (P ++ [p]) st.
Proof.
  induction st as [|a [|b t] IH]; [done..|].
  intros [Hab Hsup] Hc. split.
  - intros q [Hq| ->%list_elem_of_singleton]%elem_of_app; [by apply Hab|].
    apply Z.lt_le_incl, Hc. do 3 apply sublist_skip. apply sublist_nil_l.
  - apply IH; [done|]. intros x y z Hxyz. apply Hc.
    apply sublist_triple_cons in Hxyz as [[-> Hyz]|Hxyz].
    + by apply sublist_skip, sublist_cons.
    + by do 2 apply sublist_cons.
Qed.

(** What holds of the stack [st] once the points [P] have been scanned. *)
Record chain_inv (P st : list point) : Prop := {
  ci_elem : st ⊆ P;
  ci_desc : desc st;
  ci_top : head st = last P;
  ci_bottom : last st = head P;
  ci_convex : convex st;
  ci_supports : supports P st
}.

Lemma chain_inv_nil : chain_inv [] [].
Proof. split; try done. - constructor. - by apply convex_short; simpl; lia. Qed.

Lemma push_inv P st p :
  StronglySorted lt (P ++ [p]) → chain_inv P st →
  chain_inv (P ++ [p]) (push st p).
Proof.
  intros (HPp & HP & _)%StronglySorted_app [He Hd Ht Hb Hc Hsup].
  assert (HltP : ∀ q, q ∈ P → lt q p) by (intros; apply HPp; [done|by constructor]).
  pose proof (prune_suffix st p) as Hsuf. unfold push.
  assert (prune st p ⊆ P) as He'.
  { intros x Hx. apply He. destruct Hsuf as [k ->]. set_solver. }
  assert (desc (p :: prune st p)) as Hd'.
  { apply StronglySorted_cons. split; [|by eapply desc_suffix].
    apply Forall_forall. intros x Hx. apply HltP, He', Hx. }
  assert (convex (p :: prune st p)) as Hc'.
  { apply convex_push; [done|by eapply convex_suffix|]. intros. by eapply prune_turn. }
  assert (beyond_ok P p (prune st p)) as Hby.
  { apply prune_beyond; [done..|]. intros a q Ha Hq Haq.
    rewrite Ht in Ha. apply last_Some in Ha as [P' ->].
    apply StronglySorted_app in HP as (HP & _).
    apply elem_of_app in Hq as [Hq| ->%list_elem_of_singleton].
    - destruct (sweep_lt_asym a q); [done|]. apply HP; [done|by constructor].
    - by destruct (sweep_lt_irrefl a). }
  split.
  - intros x [->|Hx]%elem_of_cons; [set_solver|]. apply elem_of_app. left. by apply He'.
  - done.
  - by rewrite last_snoc.
  - pose proof (prune_last st p) as Hl. rewrite Hb in Hl.
    destruct P as [|p0 P']; simpl in *.
    + apply last_None in Hl. by rewrite Hl.
    + destruct (prune st p); [done|]. by rewrite last_cons, Hl.
  - done.
  - destruct (prune st p) as [|a st'] eqn:Est; [done|].
    change (supports (P ++ [p]) (p :: a :: st'))
      with ((∀ q, q ∈ P ++ [p] → 0 ≤ cross a p q) ∧ supports (P ++ [p]) (a :: st')).
    split; [|apply supports_snoc; [by eapply supports_suffix|done]].
    assert (a ∈ P) as HaP by (apply He'; by constructor).
    intros q [Hq| ->%list_elem_of_singleton]%elem_of_app;
      [|by rewrite cross_same_r].
    destruct (sweep_lt_trichotomy q a) as [Hqa|[->|Haq]].
    + destruct st' as [|o t].
      * exfalso. pose proof (prune_last st p) as Hl.
        rewrite Est, Hb in Hl. simpl in Hl.
        destruct P as [|p0 P']; [done|]. injection Hl as <-.
        apply elem_of_cons in Hq as [->|Hq]; [by eapply sweep_lt_irrefl|].
        apply StronglySorted_cons in HP as [HP _]. rewrite Forall_forall in HP.
        eapply sweep_lt_asym; [exact Hqa|]. by apply HP.
      * assert (supports P (a :: o :: t)) as [Hoa _]
          by (by eapply supports_suffix).
        eapply (push_keeps_before o a p q); auto.
        -- eapply desc_pair; [exact Hd'|]. apply sublist_cons.
           do 2 apply sublist_skip. apply sublist_nil_l.
        -- by eapply prune_turn.
    + by rewrite cross_same_lr.
    + by apply Hby.
Qed.

Lemma foldl_push_inv R P st :
  StronglySorted lt (P ++ R) → chain_inv P st →
  chain_inv (P ++ R) (foldl push st R).
Proof.
  revert P st. induction R as [|p R IH]; intros P st HS Hi; simpl.
  - by rewrite app_nil_r.
  - rewrite cons_middle, app_assoc in *. apply IH; [done|].
    apply push_inv; [|done]. by eapply StronglySorted_app_1_l.
Qed.

(** The stack left by the scan of a list met in sweep order. *)
Lemma chain_chain_inv pts : StronglySorted lt pts → chain_inv pts (chain pts).
Proof. intros. by apply (foldl_push_inv pts [] []), chain_inv_nil. Qed.

(** *** The stack is determined by what the invariant says of it *)

Lemma inner_vertex_cuts_down a b' b b'' :
  lt b b' → lt b' a → cross b a b' = 0 → 0 < cross b'' b' a →
  cross b'' b' b < 0.
Proof.
  destruct a as [a1 a2], b' as [y1 y2], b as [b1 b2], b'' as [z1 z2].
  geo; intros Hd He H0 H1.
  - pose proof (det_parallel (a1 - y1) (a2 - y2) (y1 - b1) (y2 - b2)
                  (z1 - y1) (z2 - y2)). lia.
  - pose proof (det_parallel (y1 - a1) (y2 - a2) (b1 - y1) (b2 - y2)
                  (y1 - z1) (y2 - z2)). lia.
Qed.

Lemma desc_last_below x y l z :
  desc (x :: y :: l) → last (x :: y :: l) = Some z → lt z x.
Proof.
  intros [Hx _]%StronglySorted_cons Hl. rewrite last_cons_cons in Hl.
  rewrite Forall_forall in Hx. by apply Hx, last_Some_elem_of.
Qed.

Lemma desc_last x l z : desc (x :: l) → last (x :: l) = Some z → z = x ∨ lt z x.
Proof.
  intros Hd Hl. destruct l as [|y l]; [left; by injection Hl|].
  right. by eapply desc_last_below.
Qed.

Lemma second_not_before Q a b t b' t' :
  desc (a :: b :: t) → desc (a :: b' :: t') →
  last (a :: b :: t) = last (a :: b' :: t') → b ∈ Q →
  convex (a :: b' :: t') → supports Q (a :: b' :: t') →
  cross b a b' = 0 → lt b b' → False.
Proof.
  intros Hd Hd' Hl Hb Hc [_ Hsup] H0 Hbb'.
  apply StronglySorted_cons in Hd as [_ Hd].
  apply StronglySorted_cons in Hd' as [Ha' Hd'].
  assert (lt b' a) as Hb'a.
  { rewrite Forall_forall in Ha'. apply Ha'. by constructor. }
  rewrite !last_cons_cons in Hl.
  destruct t' as [|b'' t''].
  - destruct (last (b :: t)) as [z|] eqn:Ez; [|done].
    apply desc_last in Ez; [|done]. destruct Ez as [->|Hz]; injection Hl as ->.
    + by eapply sweep_lt_irrefl.
    + eapply sweep_lt_asym; [exact Hbb'|done].
  - destruct Hsup as [Hsup _].
    pose proof (inner_vertex_cuts_down a b' b b'' Hbb' Hb'a H0) as Hcut.
    specialize (Hsup b Hb).
    assert (0 < cross b'' b' a); [|lia].
    apply Hc. do 3 apply sublist_skip. apply sublist_nil_l.
Qed.

Lemma chain_unique Q c c' :
  head c = head c' → last c = last c' →
  desc c → desc c' → c ⊆ Q → c' ⊆ Q →
  convex c → convex c' → supports Q c → supports Q c' →
  c = c'.
Proof.
  revert c'. induction c as [|a t IH]; intros c' Hh Hl Hd Hd' He He' Hc Hc' Hs' Hs''.
  { symmetry in Hh. by apply head_None in Hh. }
  destruct c' as [|a' t']; [done|]. injection Hh as <-. f_equal.
  destruct t as [|b t1], t' as [|b' t1']; [done| | |].
  - exfalso. symmetry in Hl. apply desc_last_below in Hl; [|done].
    by eapply sweep_lt_irrefl.
  - exfalso. apply desc_last_below in Hl; [|done].
    by eapply sweep_lt_irrefl.
  - assert (b ∈ Q) as HbQ by (apply He; do 2 constructor).
    assert (b' ∈ Q) as Hb'Q by (apply He'; do 2 constructor).
    assert (cross b a b' = 0) as H0.
    { destruct Hs' as [Hs' _], Hs'' as [Hs'' _].
      specialize (Hs' b' Hb'Q). specialize (Hs'' b HbQ).
      rewrite cross_flip in Hs''. lia. }
    assert (b = b') as <-.
    { destruct (sweep_lt_trichotomy b b') as [Hlt|[?|Hlt]]; [|done|].
      - destruct (second_not_before Q a b t1 b' t1'); auto.
      - destruct (second_not_before Q a b' t1' b t1); auto.
        rewrite cross_flip. lia. }
    apply IH.
    + done.
    + by rewrite !last_cons_cons in Hl.
    + by apply StronglySorted_cons in Hd as [_ Hd].
    + by apply StronglySorted_cons in Hd' as [_ Hd'].
    + intros x Hx. apply He. by constructor.
    + intros x Hx. apply He'. by constructor.
    + by eapply convex_cons.
    + by eapply convex_cons.
    + apply Hs'.
    + apply Hs''.
Qed.

(** *** A point of the opposite chain *)

(** Three directions out of [o], all ahead of it: turning left is
    transitive. *)
Lemma fan_forward o x y z :
  lt o x → lt o y → lt o z →
  0 < cross o x y → 0 < cross o y z → 0 < cross o x z.
Proof.
  destruct o as [o1 o2], x as [x1 x2], y as [y1 y2], z as [z1 z2].
  geo; nia.
Qed.

(** The same for three directions out of [o] that all point back. *)
Lemma fan_backward o x y z :
  lt x o → lt y o → lt z o →
  0 < cross o x y → 0 < cross o y z → 0 < cross o x z.
Proof.
  destruct o as [o1 o2], x as [x1 x2], y as [y1 y2], z as [z1 z2].
  geo; nia.
Qed.

(** [a] and [b] are two vertices, in this order, of a convex chain that
    runs from [P] to [Q]; [c] lies strictly between [P] and [Q] in the
    sweep and strictly to the left of the chord from [P] to [Q].  Then
    [c] is strictly to the left of the chord from [a] to [b]. *)
Lemma opposite_left P a b Q c :
  (P = a ∨ (lt P a ∧ 0 < cross P a b ∧ 0 < cross P a Q)) →
  lt a b →
  (b = Q ∨ (lt b Q ∧ 0 < cross a b Q ∧ 0 < cross P b Q)) →
  lt P c → lt c Q → 0 < cross P Q c →
  0 < cross a b c.
Proof.
  intros HPa Hab HbQ HPc HcQ Hc.
  assert (HPb : lt P b).
  { destruct HPa as [->|[? _]]; [done|]. by apply (sweep_lt_trans P a b). }
  assert (HaQ : lt a Q).
  { destruct HbQ as [<-|[? _]]; [done|]. by apply (sweep_lt_trans a b Q). }
  assert (HPQ : lt P Q) by (by apply (sweep_lt_trans P c Q)).
  (* [c] is left of the chord from [P] to [b] *)
  assert (H1 : 0 < cross P b c).
  { destruct HbQ as [->|(HbQ & _ & HPbQ)]; [done|].
    by apply (fan_forward P b Q c). }
  (* [c] is left of the chord from [a] to [Q] *)
  assert (H2 : 0 < cross a Q c).
  { destruct HPa as [<-|(HPa & _ & HPaQ)]; [done|].
    rewrite <-cross_rotate. apply (fan_backward Q c P a); auto.
    - by rewrite cross_rotate.
    - by rewrite cross_rotate, cross_rotate. }
  destruct HPa as [<-|(HPa & HPab & _)]; [done|].
  destruct HbQ as [->|(HbQ & HabQ & _)]; [done|].
  destruct (sweep_lt_trichotomy c b) as [Hcb|[->|Hbc]].
  - rewrite <-cross_rotate.
    apply (fan_backward b c P a); auto.
    + by rewrite cross_rotate.
    + by rewrite cross_rotate, cross_rotate.
  - rewrite cross_same_r in H1. lia.
  - apply (fan_forward a b Q c); auto. by apply (sweep_lt_trans a b c).
Qed.

End Sweep.

(** ** The sorted list of distinct points *)

Global Instance tuple_le_total : Total tuple_le.
Proof. intros [a1 a2] [b1 b2]. unfold tuple_le; simpl. lia. Qed.

Global Instance tuple_le_trans : Transitive tuple_le.
Proof. intros [a1 a2] [b1 b2] [c1 c2]. unfold tuple_le; simpl. lia. Qed.

Global Instance tuple_le_antisymm : AntiSymm (=) tuple_le.
Proof.
  intros [a1 a2] [b1 b2]. unfold tuple_le; simpl. intros. f_equal; lia.
Qed.

Lemma tuple_le_lt p q : tuple_le p q ↔ p = q ∨ tuple_lt p q.
Proof.
  destruct p as [a1 a2], q as [b1 b2]. unfold tuple_le, tuple_lt; simpl.
  split.
  - intros [?|[-> Hle]]; [by auto|].
    destruct (decide (a2 = b2)) as [->|]; [by left|right; lia].
  - intros [[= -> ->]|?]; lia.
Qed.

Lemma StronglySorted_impl {A} (R R' : relation A) l :
  (∀ x y, R x y → R' x y) → StronglySorted R l → StronglySorted R' l.
Proof.
  intros HR. induction 1 as [|x l Hl IH Hx]; constructor; [done|].
  eapply Forall_impl; [exact Hx|]. auto.
Qed.

Lemma StronglySorted_reverse {A} (R : relation A) l :
  StronglySorted R l → StronglySorted (flip R) (reverse l).
Proof.
  induction 1 as [|x l Hl IH Hx]; [constructor|].
  rewrite reverse_cons. apply StronglySorted_app_2; [|done|repeat constructor].
  intros y z Hy ->%list_elem_of_singleton. rewrite Forall_forall in Hx.
  by apply Hx, elem_of_reverse.
Qed.

Lemma StronglySorted_strict l :
  StronglySorted tuple_le l → NoDup l → StronglySorted tuple_lt l.
Proof.
  induction 1 as [|x l Hl IH Hx]; [constructor|].
  intros [Hnx Hnd]%NoDup_cons. constructor; [by apply IH|].
  rewrite Forall_forall in *. intros y Hy.
  destruct (tuple_le_lt x y) as [[->|?] _]; [by apply Hx|done|done].
Qed.

Lemma sorted_Permutation s : sorted s ≡ₚ elements s.
Proof. apply merge_sort_Permutation. Qed.

Lemma elem_of_sorted l x : x ∈ sorted (py_set l) ↔ x ∈ l.
Proof.
  rewrite sorted_Permutation, elem_of_elements. apply elem_of_list_to_set.
Qed.

Lemma NoDup_sorted s : NoDup (sorted s).
Proof. rewrite sorted_Permutation. apply NoDup_elements. Qed.

Lemma length_sorted s : length (sorted s) = size s.
Proof. by rewrite sorted_Permutation. Qed.

Lemma sorted_lt s : StronglySorted tuple_lt (sorted s).
Proof.
  apply StronglySorted_strict; [|apply NoDup_sorted].
  apply StronglySorted_merge_sort; apply _.
Qed.

(** Python does not fix the order in which a set is iterated; whatever
    that order is, sorting gives the same list. *)
Lemma sorted_canonical s d :
  NoDup d → (∀ x, x ∈ d ↔ x ∈ s) → merge_sort tuple_le d = sorted s.
Proof.
  intros Hd Hs. apply (StronglySorted_unique tuple_le).
  - apply StronglySorted_merge_sort; apply _.
  - apply StronglySorted_merge_sort; apply _.
  - rewrite merge_sort_Permutation, sorted_Permutation.
    apply NoDup_Permutation; [done|apply NoDup_elements|].
    intros x. by rewrite Hs, elem_of_elements.
Qed.

Lemma sorted_asc pts : StronglySorted tuple_lt pts → StronglySorted (sweep_lt 1) pts.
Proof. apply StronglySorted_impl. intros x y. by rewrite sweep_lt_asc. Qed.

Lemma sorted_desc pts :
  StronglySorted tuple_lt pts → StronglySorted (sweep_lt (-1)) (reverse pts).
Proof.
  intros H%StronglySorted_reverse. revert H. apply StronglySorted_impl.
  intros x y. by rewrite sweep_lt_desc.
Qed.

Lemma lower_inv pts :
  StronglySorted tuple_lt pts → chain_inv 1 pts (chain pts).
Proof. intros. apply chain_chain_inv; [by left|by apply sorted_asc]. Qed.

Lemma upper_inv pts :
  StronglySorted tuple_lt pts → chain_inv (-1) (reverse pts) (chain (reverse pts)).
Proof. intros. apply chain_chain_inv; [by right|by apply sorted_desc]. Qed.

(** ** Anatomy of the two chains *)

Lemma list_ends {A} (l : list A) a b :
  head l = Some a → last l = Some b → a ≠ b → ∃ m, l = a :: m ++ [b].
Proof.
  destruct l as [|x l]; [done|]. intros [= ->] Hl Hab.
  apply last_Some in Hl as [[|y k] Hk]; simplify_eq/=. by exists k.
Qed.

Lemma StronglySorted_NoDup {A} (R : relation A) l :
  (∀ x, ¬ R x x) → StronglySorted R l → NoDup l.
Proof.
  intros HR. induction 1 as [|x l Hl IH Hx]; constructor; [|done].
  intros Hin. rewrite Forall_forall in Hx. by apply (HR x), Hx.
Qed.

Lemma tuple_lt_irrefl p : ¬ tuple_lt p p.
Proof. unfold tuple_lt. lia. Qed.

Lemma tuple_lt_trans p q r : tuple_lt p q → tuple_lt q r → tuple_lt p r.
Proof. unfold tuple_lt. lia. Qed.

Lemma tuple_lt_le p q : tuple_lt p q → tuple_le p q.
Proof. unfold tuple_lt, tuple_le. lia. Qed.

Lemma tuple_lt_not_le p q : tuple_lt p q → tuple_le q p → False.
Proof. unfold tuple_lt, tuple_le. lia. Qed.

(** The first point of a strictly sorted list is below all the others, the
    last one above. *)
Lemma sorted_head_min pts p1 q :
  StronglySorted tuple_lt pts → head pts = Some p1 → q ∈ pts →
  q = p1 ∨ tuple_lt p1 q.
Proof.
  destruct pts as [|x pts]; [done|]. intros [Hx _]%StronglySorted_cons [= ->].
  intros [->|Hq]%elem_of_cons; [by left|right].
  rewrite Forall_forall in Hx. by apply Hx.
Qed.

Lemma sorted_last_max pts pn q :
  StronglySorted tuple_lt pts → last pts = Some pn → q ∈ pts →
  q = pn ∨ tuple_lt q pn.
Proof.
  intros HS [k ->]%last_Some. apply StronglySorted_app in HS as (Hk & _ & _).
  intros [Hq| ->%list_elem_of_singleton]%elem_of_app; [right|by left].
  apply Hk; [done|by constructor].
Qed.

(** The shape of the two stacks once [pts] holds two points or more:
    [lower] runs from [p1] (bottom) to [pn] (top) through [A], [upper] from
    [pn] to [p1] through [B]. *)
Record anatomy (pts : list point) (p1 pn : point) (A B : list point) : Prop := {
  an_sorted : StronglySorted tuple_lt pts;
  an_head : head pts = Some p1;
  an_last : last pts = Some pn;
  an_lt : tuple_lt p1 pn;
  an_lower : chain pts = pn :: A ++ [p1];
  an_upper : chain (reverse pts) = p1 :: B ++ [pn]
}.

Lemma anatomy_exists pts :
  StronglySorted tuple_lt pts → (2 ≤ length pts)%nat →
  ∃ p1 pn A B, anatomy pts p1 pn A B.
Proof.
  intros HS Hlen.
  destruct pts as [|p1 pts']; [simpl in Hlen; lia|].
  destruct (last (p1 :: pts')) as [pn|] eqn:Hl;
    [|by apply last_None in Hl].
  assert (tuple_lt p1 pn) as Hlt.
  { destruct (sorted_head_min (p1 :: pts') p1 pn HS eq_refl) as [->|?];
      [by eapply last_Some_elem_of| |done].
    destruct pts' as [|x pts'']; [simpl in Hlen; lia|].
    rewrite last_cons_cons in Hl.
    apply StronglySorted_cons in HS as [Hx _]. rewrite Forall_forall in Hx.
    apply Hx. by apply last_Some_elem_of. }
  assert (p1 ≠ pn) by (intros ->; by eapply tuple_lt_irrefl).
  destruct (lower_inv _ HS) as [_ _ Ht Hb _ _].
  destruct (upper_inv _ HS) as [_ _ Ht' Hb' _ _].
  rewrite last_reverse in Ht'. rewrite head_reverse in Hb'.
  rewrite Hl in Ht, Hb'. simpl in Hb, Ht'.
  destruct (list_ends _ _ _ Ht Hb) as [A HA]; [done|].
  destruct (list_ends _ _ _ Ht' Hb') as [B HB]; [done|].
  exists p1, pn, A, B. by split.
Qed.

Lemma hull_small l :
  (size (py_set l) < 3)%nat → convex_hull_xy l = [].
Proof.
  intros Hsz. unfold convex_hull_xy. rewrite length_sorted.
  by rewrite decide_True.
Qed.

Lemma hull_large l :
  (3 ≤ size (py_set l))%nat →
  ∃ p1 pn A B,
    anatomy (sorted (py_set l)) p1 pn A B ∧
    convex_hull_xy l = p1 :: reverse A ++ pn :: reverse B.
Proof.
  intros Hsz.
  destruct (anatomy_exists (sorted (py_set l))) as (p1 & pn & A & B & Han).
  { apply sorted_lt. }
  { rewrite length_sorted. lia. }
  exists p1, pn, A, B. split; [done|].
  unfold convex_hull_xy. rewrite length_sorted.
  rewrite decide_False by lia. cbv zeta.
  rewrite (an_lower _ _ _ _ _ Han), (an_upper _ _ _ _ _ Han).
  unfold but_last. simpl. by rewrite !reverse_snoc.
Qed.

Section Anatomy.
Context {pts : list point} {p1 pn : point} {A B : list point}.
Hypothesis Han : anatomy pts p1 pn A B.

Lemma lower_facts : chain_inv 1 pts (pn :: A ++ [p1]).
Proof. rewrite <-(an_lower _ _ _ _ _ Han). apply lower_inv, Han. Qed.

Lemma upper_facts : chain_inv (-1) (reverse pts) (p1 :: B ++ [pn]).
Proof. rewrite <-(an_upper _ _ _ _ _ Han). apply upper_inv, Han. Qed.

Lemma p1_in_pts : p1 ∈ pts.
Proof. apply head_Some_elem_of, Han. Qed.

Lemma pn_in_pts : pn ∈ pts.
Proof. apply last_Some_elem_of, Han. Qed.

Lemma lower_in_pts a : a ∈ A → a ∈ pts.
Proof.
  intros Ha. apply (ci_elem _ _ _ lower_facts).
  apply elem_of_cons. right. apply elem_of_app. by left.
Qed.

Lemma upper_in_pts b : b ∈ B → b ∈ pts.
Proof.
  intros Hb. apply elem_of_reverse, (ci_elem _ _ _ upper_facts).
  apply elem_of_cons. right. apply elem_of_app. by left.
Qed.

Lemma lower_between a : a ∈ A → tuple_lt p1 a ∧ tuple_lt a pn.
Proof.
  intros Ha. pose proof (ci_desc _ _ _ lower_facts) as Hd.
  apply StronglySorted_cons in Hd as [Hpn Hd]. rewrite Forall_forall in Hpn.
  apply StronglySorted_app in Hd as (Hd & _ & _). split.
  - apply sweep_lt_asc, (Hd a p1); [done|by constructor].
  - apply sweep_lt_asc, Hpn, elem_of_app. by left.
Qed.

Lemma upper_between b : b ∈ B → tuple_lt p1 b ∧ tuple_lt b pn.
Proof.
  intros Hb. pose proof (ci_desc _ _ _ upper_facts) as Hd.
  apply StronglySorted_cons in Hd as [Hp1 Hd]. rewrite Forall_forall in Hp1.
  apply StronglySorted_app in Hd as (Hd & _ & _). split.
  - apply sweep_lt_desc, Hp1, elem_of_app. by left.
  - apply sweep_lt_desc, (Hd b pn); [done|by constructor].
Qed.

(** A vertex strictly inside the lower chain is strictly to the right of
    the chord from [p1] to [pn]; one inside the upper chain, strictly to
    its left. *)
Lemma lower_below a : a ∈ A → 0 < cross p1 a pn.
Proof.
  intros Ha. apply (ci_convex _ _ _ lower_facts).
  apply sublist_skip, (sublist_app [a] A [p1] [p1]); [|done].
  by apply singleton_sublist_l.
Qed.

Lemma upper_above b : b ∈ B → 0 < cross pn b p1.
Proof.
  intros Hb. apply (ci_convex _ _ _ upper_facts).
  apply sublist_skip, (sublist_app [b] B [pn] [pn]); [|done].
  by apply singleton_sublist_l.
Qed.

Lemma lower_upper_disjoint x : x ∈ A → x ∈ B → False.
Proof.
  intros Ha%lower_below Hb%upper_above. rewrite cross_flip in Hb. lia.
Qed.

Lemma NoDup_lower : NoDup (pn :: A ++ [p1]).
Proof.
  eapply StronglySorted_NoDup; [|apply (ci_desc _ _ _ lower_facts)].
  intros x. apply sweep_lt_irrefl. by left.
Qed.

Lemma NoDup_upper : NoDup (p1 :: B ++ [pn]).
Proof.
  eapply StronglySorted_NoDup; [|apply (ci_desc _ _ _ upper_facts)].
  intros x. apply sweep_lt_irrefl. by right.
Qed.

(** The list that [convex_hull_xy] returns: [lower[:-1] + upper[:-1]]. *)
Lemma hull_list_in_pts x : x ∈ p1 :: reverse A ++ pn :: reverse B → x ∈ pts.
Proof.
  rewrite elem_of_cons, elem_of_app, elem_of_cons, !elem_of_reverse.
  intros [->|[Hx|[->|Hx]]].
  - apply p1_in_pts.
  - by apply lower_in_pts.
  - apply pn_in_pts.
  - by apply upper_in_pts.
Qed.

Lemma hull_list_NoDup : NoDup (p1 :: reverse A ++ pn :: reverse B).
Proof.
  pose proof NoDup_lower as [HpnA HA]%NoDup_cons.
  pose proof NoDup_upper as [Hp1B HB]%NoDup_cons.
  apply NoDup_app in HA as (HA & HAp1 & _).
  apply NoDup_app in HB as (HB & HBpn & _).
  change (NoDup ((p1 :: reverse A) ++ pn :: reverse B)).
  apply NoDup_app. split; [|split].
  - apply NoDup_cons. split; [|by rewrite reverse_Permutation].
    rewrite elem_of_reverse. intros Hin. apply (HAp1 _ Hin). constructor.
  - intros x. rewrite !elem_of_cons, !elem_of_reverse.
    intros [->|Hx] [E|Hy].
    + subst. by eapply tuple_lt_irrefl, (an_lt _ _ _ _ _ Han).
    + apply Hp1B, elem_of_app. by left.
    + subst. apply HpnA, elem_of_app. by left.
    + by eapply lower_upper_disjoint.
  - apply NoDup_cons. split; [|by rewrite reverse_Permutation].
    rewrite elem_of_reverse. intros Hin. apply (HBpn _ Hin). constructor.
Qed.

(** When every point is on the line through [p1] and [pn], neither chain
    has an inner vertex. *)
Lemma flat_chains : (∀ q, q ∈ pts → cross p1 q pn = 0) → A = [] ∧ B = [].
Proof.
  intros Hline. split; apply elem_of_nil_inv.
  - intros a Ha. pose proof (lower_below a Ha) as Hcr.
    rewrite Hline in Hcr by (by apply lower_in_pts). lia.
  - intros b Hb. pose proof (upper_above b Hb) as Hcr.
    rewrite cross_flip, Hline in Hcr by (by apply upper_in_pts). lia.
Qed.

End Anatomy.

(** ** Counter-clockwise order *)

Lemma sublist_reverse {A} (l1 l2 : list A) :
  l1 `sublist_of` l2 → reverse l1 `sublist_of` reverse l2.
Proof.
  induction 1 as [|x l1 l2 _ IH|x l1 l2 _ IH]; [done|..];
    rewrite ?reverse_cons.
  - by apply sublist_app.
  - by apply sublist_inserts_r.
Qed.

Lemma sublist_lookup_1 {A} (h : list A) i a :
  h !! i = Some a → [a] `sublist_of` h.
Proof. intros H. by eapply singleton_sublist_l, list_elem_of_lookup_2. Qed.

Lemma sublist_lookup_2 {A} (h : list A) i j a b :
  (i < j)%nat → h !! i = Some a → h !! j = Some b → [a; b] `sublist_of` h.
Proof.
  revert i j. induction h as [|x h IH]; intros i j Hij Hi Hj; [done|].
  destruct j as [|j]; [lia|]. destruct i as [|i]; simpl in *.
  - injection Hi as ->. apply sublist_skip. by eapply sublist_lookup_1.
  - apply sublist_cons. apply (IH i j); [lia|done..].
Qed.

Lemma sublist_lookup_3 {A} (h : list A) i j k a b c :
  (i < j < k)%nat → h !! i = Some a → h !! j = Some b → h !! k = Some c →
  [a; b; c] `sublist_of` h.
Proof.
  revert i j k. induction h as [|x h IH]; intros i j k Hijk Hi Hj Hk; [done|].
  destruct j as [|j]; [lia|]. destruct k as [|k]; [lia|].
  destruct i as [|i]; simpl in *.
  - injection Hi as ->. apply sublist_skip. apply (sublist_lookup_2 h j k); [lia|done..].
  - apply sublist_cons. apply (IH i j k); [lia|done..].
Qed.

(** Every vertex, with the next two around the polygon, makes a strict left
    turn; the vertex after the last one is the first. *)
Definition cyclic_left (h : list point) : Prop :=
  ∀ i a b c,
    h !! i = Some a →
    h !! ((i + 1) mod length h)%nat = Some b →
    h !! ((i + 2) mod length h)%nat = Some c →
    0 < cross a b c.

(** Any three vertices, in the order of the list, make a strict left
    turn. *)
Definition convex_position (h : list point) : Prop :=
  ∀ a b c, [a; b; c] `sublist_of` h → 0 < cross a b c.

Lemma convex_position_cyclic h :
  (3 ≤ length h)%nat → convex_position h → cyclic_left h.
Proof.
  intros Hlen Hc i a b c Hi Hj Hk.
  pose proof (lookup_lt_Some _ _ _ Hi) as Hilt.
  destruct (decide (i + 2 < length h)%nat) as [Hlt|Hge].
  - rewrite Nat.mod_small in Hj, Hk by lia.
    apply Hc, (sublist_lookup_3 h i (i + 1) (i + 2)); [lia|done..].
  - destruct (decide (i + 1 < length h)%nat) as [Hlt1|Hge1].
    + rewrite Nat.mod_small in Hj by lia.
      replace (i + 2)%nat with (length h) in Hk by lia.
      rewrite Nat.Div0.mod_same in Hk.
      rewrite cross_rotate.
      apply Hc, (sublist_lookup_3 h 0 i (i + 1)); [lia|done..].
    + assert (i + 1 = length h)%nat as Hi1 by lia.
      rewrite Hi1, Nat.Div0.mod_same in Hj.
      replace (i + 2)%nat with (1 * length h + 1)%nat in Hk by lia.
      rewrite Nat.add_comm, Nat.Div0.mod_add, Nat.mod_small in Hk by lia.
      rewrite <-cross_rotate.
      apply Hc, (sublist_lookup_3 h 0 1 i); [lia|done..].
Qed.

Lemma sublist_snoc3 {A} (x y z : A) M :
  [x; y] `sublist_of` M → [x; y; z] `sublist_of` M ++ [z].
Proof. intros. by apply (sublist_app [x; y] M [z] [z]). Qed.

Lemma reverse_src {A} (x y : A) M :
  reverse (x :: reverse M ++ [y]) = y :: M ++ [x].
Proof. by rewrite reverse_cons, reverse_app, reverse_involutive. Qed.

Section Orientation.
Context {pts : list point} {p1 pn : point} {A B : list point}.
Hypothesis Han : anatomy pts p1 pn A B.

(** The chains read from their first point on. *)
Lemma lower_src_convex a b c :
  [a; b; c] `sublist_of` p1 :: reverse A ++ [pn] → 0 < cross a b c.
Proof.
  intros H%sublist_reverse. apply (ci_convex _ _ _ (lower_facts Han)).
  by rewrite reverse_src in H.
Qed.

Lemma upper_src_convex a b c :
  [a; b; c] `sublist_of` pn :: reverse B ++ [p1] → 0 < cross a b c.
Proof.
  intros H%sublist_reverse. apply (ci_convex _ _ _ (upper_facts Han)).
  by rewrite reverse_src in H.
Qed.

Lemma lower_src_lt a b :
  [a; b] `sublist_of` p1 :: reverse A ++ [pn] → tuple_lt a b.
Proof.
  intros H%sublist_reverse. apply sweep_lt_asc.
  apply (desc_pair 1 _ b a (ci_desc _ _ _ (lower_facts Han))).
  by rewrite reverse_src in H.
Qed.

Lemma upper_src_lt a b :
  [a; b] `sublist_of` pn :: reverse B ++ [p1] → tuple_lt b a.
Proof.
  intros H%sublist_reverse. apply sweep_lt_desc.
  apply (desc_pair (-1) _ b a (ci_desc _ _ _ (upper_facts Han))).
  by rewrite reverse_src in H.
Qed.

(** Two vertices of the lower chain, then one inside the upper chain. *)
Lemma lower_lower_upper a b c :
  [a; b] `sublist_of` p1 :: reverse A → c ∈ B → 0 < cross a b c.
Proof.
  intros Hab Hc.
  assert ([a; b] `sublist_of` p1 :: reverse A ++ [pn]) as Hab'
    by (by apply (sublist_inserts_r [pn]) in Hab).
  assert (b ∈ A) as Hb.
  { apply sublist_pair_cons in Hab as [[_ Hb]|Hab].
    - by apply elem_of_reverse.
    - apply elem_of_reverse. eapply elem_of_sublist; [|done]. by do 2 constructor. }
  destruct (lower_between Han b Hb) as [Hp1b Hbpn].
  destruct (upper_between Han c Hc) as [Hp1c Hcpn].
  apply (opposite_left 1 (or_introl eq_refl) p1 a b pn c).
  - apply sublist_pair_cons in Hab as [[-> _]|Hab]; [by left|right].
    assert (a ∈ A) as Ha.
    { apply elem_of_reverse. eapply elem_of_sublist; [|done]. by constructor. }
    split; [apply sweep_lt_asc, (lower_between Han a Ha)|]. split.
    + apply lower_src_convex. apply sublist_skip. by apply sublist_inserts_r.
    + by apply (lower_below Han).
  - by apply sweep_lt_asc, lower_src_lt.
  - right. split; [by apply sweep_lt_asc|]. split.
    + apply lower_src_convex. by apply (sublist_snoc3 _ _ _ (p1 :: reverse A)).
    + by apply (lower_below Han).
  - by apply sweep_lt_asc.
  - by apply sweep_lt_asc.
  - rewrite <-cross_rotate. by apply (upper_above Han).
Qed.

(** One vertex inside the lower chain, then two of the upper chain. *)
Lemma lower_upper_upper a b c :
  a ∈ A → [b; c] `sublist_of` pn :: reverse B → 0 < cross a b c.
Proof.
  intros Ha Hbc.
  assert ([b; c] `sublist_of` pn :: reverse B ++ [p1]) as Hbc'
    by (by apply (sublist_inserts_r [p1]) in Hbc).
  assert (c ∈ B) as Hc.
  { apply sublist_pair_cons in Hbc as [[_ Hc]|Hbc].
    - by apply elem_of_reverse.
    - apply elem_of_reverse. eapply elem_of_sublist; [|done]. by do 2 constructor. }
  destruct (lower_between Han a Ha) as [Hp1a Hapn].
  destruct (upper_between Han c Hc) as [Hp1c Hcpn].
  rewrite <-cross_rotate.
  apply (opposite_left (-1) (or_intror eq_refl) pn b c p1 a).
  - apply sublist_pair_cons in Hbc as [[-> _]|Hbc]; [by left|right].
    assert (b ∈ B) as Hb.
    { apply elem_of_reverse. eapply elem_of_sublist; [|done]. by constructor. }
    split; [apply sweep_lt_desc, (upper_between Han b Hb)|]. split.
    + apply upper_src_convex. apply sublist_skip. by apply sublist_inserts_r.
    + by apply (upper_above Han).
  - by apply sweep_lt_desc, upper_src_lt.
  - right. split; [by apply sweep_lt_desc|]. split.
    + apply upper_src_convex. by apply (sublist_snoc3 _ _ _ (pn :: reverse B)).
    + by apply (upper_above Han).
  - by apply sweep_lt_desc.
  - by apply sweep_lt_desc.
  - rewrite <-cross_rotate. by apply (lower_below Han).
Qed.

Lemma hull_list_convex_position :
  convex_position (p1 :: reverse A ++ pn :: reverse B).
Proof.
  intros a b c. change (p1 :: reverse A ++ pn :: reverse B)
    with ((p1 :: reverse A) ++ (pn :: reverse B)).
  intros (k1 & k2 & Hk & H1 & H2)%sublist_app_r.
  destruct k1 as [|x1 [|x2 [|x3 k1]]]; simplify_eq/=.
  - apply upper_src_convex. by apply (sublist_inserts_r [p1]) in H2.
  - apply sublist_cons_r in H1 as [H1|(? & [= -> <-] & _)].
    + apply singleton_sublist_l in H1. rewrite elem_of_reverse in H1.
      by apply lower_upper_upper.
    + rewrite <-cross_rotate. apply upper_src_convex.
      by apply (sublist_snoc3 _ _ _ (pn :: reverse B)).
  - apply sublist_cons_r in H2 as [H2|(? & [= -> <-] & _)].
    + apply singleton_sublist_l in H2. rewrite elem_of_reverse in H2.
      by apply lower_lower_upper.
    + apply lower_src_convex.
      by apply (sublist_snoc3 _ _ _ (p1 :: reverse A)).
  - destruct k1; [|done]. simplify_eq/=.
    apply lower_src_convex. by apply (sublist_inserts_r [pn]) in H1.
Qed.

End Orientation.

(** ** What the specification states of [convex_hull_xy] *)

(** The result depends on the input through its set of points only. *)
Lemma hull_of_set l l' : py_set l = py_set l' → convex_hull_xy l = convex_hull_xy l'.
Proof. unfold convex_hull_xy. by intros ->. Qed.

Lemma py_set_ext l l' : (∀ p, p ∈ l ↔ p ∈ l') → py_set l = py_set l'.
Proof.
  intros H. apply set_eq. intros p. unfold py_set.
  by rewrite !elem_of_list_to_set.
Qed.

(** All points of [l] lie on one line. *)
Definition collinear (l : list point) : Prop :=
  ∀ o a b, o ∈ l → a ∈ l → b ∈ l → cross o a b = 0.

(** [lo] and [hi] are the smallest and the largest point of [l] in tuple
    order. *)
Definition extremes (l : list point) (lo hi : point) : Prop :=
  lo ∈ l ∧ hi ∈ l ∧ ∀ q, q ∈ l → tuple_le lo q ∧ tuple_le q hi.

Lemma collinear_Forall l :
  collinear l ↔
  Forall (λ o, Forall (λ a, Forall (λ b, cross o a b = 0) l) l) l.
Proof.
  unfold collinear. rewrite Forall_forall.
  setoid_rewrite Forall_forall. setoid_rewrite Forall_forall. naive_solver.
Qed.

Lemma extremes_Forall l lo hi :
  extremes l lo hi ↔
  lo ∈ l ∧ hi ∈ l ∧ Forall (λ q, tuple_le lo q ∧ tuple_le q hi) l.
Proof. unfold extremes. by rewrite Forall_forall. Qed.

Global Instance collinear_dec l : Decision (collinear l).
Proof.
  refine (cast_if (decide (Forall (λ o, Forall (λ a,
            Forall (λ b, cross o a b = 0) l) l) l)));
    abstract (by rewrite collinear_Forall).
Defined.

Global Instance extremes_dec l lo hi : Decision (extremes l lo hi).
Proof.
  refine (cast_if (decide (lo ∈ l ∧ hi ∈ l ∧
            Forall (λ q, tuple_le lo q ∧ tuple_le q hi) l)));
    abstract (by rewrite extremes_Forall).
Defined.

(** Settles a decidable statement about concrete data by evaluation. *)
Ltac by_compute :=
  lazymatch goal with
  | |- ?P => apply (bool_decide_unpack P); vm_compute; exact I
  end.

(** Any number of copies of at most two points: fewer than three distinct
    points. *)
Lemma size_at_most_two (l : list point) a b :
  (∀ p, p ∈ l → p = a ∨ p = b) →
  (size (list_to_set l : gset point) < 3)%nat.
Proof.
  intros Hl.
  assert (list_to_set l ⊆ ({[a; b]} : gset point)) as Hsub.
  { intros p Hp%elem_of_list_to_set. destruct (Hl p Hp) as [-> | ->]; set_solver. }
  apply subseteq_size in Hsub.
  pose proof (size_union_alt ({[a]} : gset point) {[b]}) as Hu.
  assert (size ({[b]} ∖ {[a]} : gset point) ≤ size ({[b]} : gset point))%nat
    as Hd by (apply subseteq_size; set_solver).
  rewrite !size_singleton in *. lia.
Qed.

(** C1. An input with fewer than three distinct points (none, one, two,
    or any number of copies of at most two points) has the empty hull. *)
Theorem hull_fewer_than_three l :
  (size (list_to_set l : gset point) < 3)%nat → convex_hull_xy l = [].
Proof. apply hull_small. Qed.

Lemma hull_fewer_than_three_witness :
  convex_hull_xy [(1,1); (5,2); (1,1); (5,2); (5,2)] = [].
Proof. apply hull_fewer_than_three. vm_compute. lia. Defined.

(** In exact arithmetic, three or more distinct points that all lie on one
    line have the two ends of the segment as their hull, the smallest point
    first; every point in between is pruned. *)
Lemma hull_collinear l lo hi :
  (3 ≤ size (list_to_set l : gset point))%nat → collinear l →
  extremes l lo hi →
  convex_hull_xy l = [lo; hi].
Proof.
  intros Hsz Hcol (Hlo & Hhi & Hext).
  destruct (hull_large l Hsz) as (p1 & pn & A & B & Han & ->).
  assert (∀ q, q ∈ sorted (py_set l) → q ∈ l) as Hin
    by (intros q; by rewrite elem_of_sorted).
  pose proof (Hin _ (p1_in_pts Han)) as Hp1.
  pose proof (Hin _ (pn_in_pts Han)) as Hpn.
  destruct (flat_chains Han) as [-> ->].
  { intros q Hq. apply Hcol; auto. }
  assert (lo = p1) as ->.
  { destruct (sorted_head_min _ p1 lo (an_sorted _ _ _ _ _ Han)
                (an_head _ _ _ _ _ Han)) as [?|Hlt]; [by apply elem_of_sorted|done|].
    destruct (tuple_lt_not_le p1 lo Hlt). by apply Hext. }
  assert (hi = pn) as ->.
  { destruct (sorted_last_max _ pn hi (an_sorted _ _ _ _ _ Han)
                (an_last _ _ _ _ _ Han)) as [?|Hlt]; [by apply elem_of_sorted|done|].
    destruct (tuple_lt_not_le hi pn Hlt). by apply Hext. }
  done.
Qed.

(** C4. Every vertex of the hull is one of the input points. *)
Theorem hull_subset l p : p ∈ convex_hull_xy l → p ∈ l.
Proof.
  destruct (decide (size (py_set l) < 3)%nat) as [Hsz|Hsz].
  { rewrite hull_small by done. by intros ?%elem_of_nil. }
  destruct (hull_large l) as (p1 & pn & A & B & Han & ->); [lia|].
  intros Hp. by apply elem_of_sorted, (hull_list_in_pts Han).
Qed.

Lemma hull_subset_witness :
  (4,4) ∈ [(0,0); (4,0); (4,4); (0,4); (2,2)].
Proof.
  apply (hull_subset [(0,0); (4,0); (4,4); (0,4); (2,2)] (4,4)).
  by_compute.
Defined.

(** C6. Shuffling the input does not change the hull: the same list comes
    out, so in particular the same cyclic sequence (a rotation by nothing)
    and the same set of vertices. *)
Theorem hull_permutation l l' :
  l ≡ₚ l' →
  convex_hull_xy l' = convex_hull_xy l
  ∧ (∃ k, convex_hull_xy l' = rotate k (convex_hull_xy l))
  ∧ (∀ p, p ∈ convex_hull_xy l' ↔ p ∈ convex_hull_xy l).
Proof.
  intros Hp.
  assert (convex_hull_xy l' = convex_hull_xy l) as ->.
  { apply hull_of_set, py_set_ext. intros p. by rewrite Hp. }
  split; [done|]. split; [|done].
  exists 0%nat. unfold rotate. rewrite Nat.Div0.mod_0_l. simpl. by rewrite app_nil_r.
Qed.

Lemma hull_permutation_witness :
  convex_hull_xy [(0,4); (2,2); (4,4); (0,0); (4,0)]
  = convex_hull_xy [(0,0); (4,0); (4,4); (0,4); (2,2)].
Proof.
  apply (hull_permutation [(0,0); (4,0); (4,4); (0,4); (2,2)]
           [(0,4); (2,2); (4,4); (0,0); (4,0)]).
  by_compute.
Defined.

(** C9. A hull that is not empty starts at the smallest input point in
    tuple order (by [x], then [y]); and the whole list is fixed by the set
    of input points. *)
Theorem hull_starts_at_least l l' p0 rest :
  convex_hull_xy l = p0 :: rest →
  (p0 ∈ l ∧ ∀ q, q ∈ l → tuple_le p0 q)
  ∧ ((∀ p, p ∈ l ↔ p ∈ l') → convex_hull_xy l' = p0 :: rest).
Proof.
  intros Hh. split.
  - destruct (decide (size (py_set l) < 3)%nat) as [Hsz|Hsz].
    { by rewrite hull_small in Hh. }
    destruct (hull_large l) as (p1 & pn & A & B & Han & Heq); [lia|].
    rewrite Heq in Hh. injection Hh as -> _. split.
    + apply elem_of_sorted, (p1_in_pts Han).
    + intros q Hq%elem_of_sorted. apply tuple_le_lt.
      destruct (sorted_head_min _ p0 q (an_sorted _ _ _ _ _ Han)
                  (an_head _ _ _ _ _ Han) Hq); auto.
  - intros Hset. rewrite <-Hh. symmetry. by apply hull_of_set, py_set_ext.
Qed.

Lemma hull_starts_at_least_witness :
  ((0,0) ∈ [(4,4); (0,4); (2,2); (0,0); (4,0)]
   ∧ ∀ q, q ∈ [(4,4); (0,4); (2,2); (0,0); (4,0)] → tuple_le (0,0) q)
  ∧ ((∀ p, p ∈ [(4,4); (0,4); (2,2); (0,0); (4,0)]
           ↔ p ∈ [(0,0); (0,0); (4,0); (2,2); (0,4); (4,4); (2,2)]) →
     convex_hull_xy [(0,0); (0,0); (4,0); (2,2); (0,4); (4,4); (2,2)]
     = [(0,0); (4,0); (4,4); (0,4)]).
Proof.
  apply (hull_starts_at_least [(4,4); (0,4); (2,2); (0,0); (4,0)]).
  vm_compute. reflexivity.
Defined.

(** In exact arithmetic no vertex occurs twice in the hull: the two chains
    without their last points share no point. *)
Lemma hull_NoDup l : NoDup (convex_hull_xy l).
Proof.
  destruct (decide (size (py_set l) < 3)%nat) as [Hsz|Hsz].
  { rewrite hull_small by done. constructor. }
  destruct (hull_large l) as (p1 & pn & A & B & Han & ->); [lia|].
  apply (hull_list_NoDup Han).
Qed.

(** ** The hull of a hull *)

(** Points that are each on the line through two distinct points [p] and
    [r] are on one line. *)
Lemma on_one_line p r o a b :
  p ≠ r → cross p r o = 0 → cross p r a = 0 → cross p r b = 0 →
  cross o a b = 0.
Proof.
  destruct p as [p1 p2], r as [r1 r2], o as [o1 o2], a as [a1 a2], b as [b1 b2].
  unfold cross; simpl. intros Hne Ho Ha Hb.
  assert (r1 - p1 ≠ 0 ∨ r2 - p2 ≠ 0) as Hd.
  { destruct (decide (r1 = p1)) as [->|]; [|lia].
    destruct (decide (r2 = p2)) as [->|]; [done|lia]. }
  assert ((a1 - o1) * (r2 - p2) - (a2 - o2) * (r1 - p1) = 0) as Hu by lia.
  assert ((b1 - o1) * (r2 - p2) - (b2 - o2) * (r1 - p1) = 0) as Hv by lia.
  set (X := (a1 - o1) * (b2 - o2) - (a2 - o2) * (b1 - o1)).
  assert (X * (r1 - p1) = 0) as H1.
  { replace (X * (r1 - p1))
      with (((a1 - o1) * (r2 - p2) - (a2 - o2) * (r1 - p1)) * (b1 - o1)
            - ((b1 - o1) * (r2 - p2) - (b2 - o2) * (r1 - p1)) * (a1 - o1))
      by (unfold X; ring).
    rewrite Hu, Hv. ring. }
  assert (X * (r2 - p2) = 0) as H2.
  { replace (X * (r2 - p2))
      with (((a1 - o1) * (r2 - p2) - (a2 - o2) * (r1 - p1)) * (b2 - o2)
            - ((b1 - o1) * (r2 - p2) - (b2 - o2) * (r1 - p1)) * (a2 - o2))
      by (unfold X; ring).
    rewrite Hu, Hv. ring. }
  destruct Hd; nia.
Qed.

Section Idempotence.
Context {pts : list point} {p1 pn : point} {A B : list point}.
Hypothesis Han : anatomy pts p1 pn A B.
Context {pts' : list point} {A' B' : list point}.
Hypothesis Han' : anatomy pts' p1 pn A' B'.
Hypothesis Hsub : pts' ⊆ pts.
Hypothesis HA : A ⊆ pts'.
Hypothesis HB : B ⊆ pts'.

Lemma lower_again : A' = A.
Proof.
  pose proof (lower_facts Han) as [He Hd _ _ Hc Hs].
  pose proof (lower_facts Han') as [He' Hd' _ _ Hc' Hs'].
  assert (pn :: A' ++ [p1] = pn :: A ++ [p1]) as Heq.
  { apply (chain_unique 1 (or_introl eq_refl) pts'); try done.
    - by rewrite !last_cons, !last_snoc.
    - intros x [->|[Hx| ->%list_elem_of_singleton]%elem_of_app]%elem_of_cons.
      + apply (pn_in_pts Han').
      + by apply HA.
      + apply (p1_in_pts Han').
    - by eapply supports_subseteq. }
  injection Heq as Heq. by apply app_inv_tail in Heq.
Qed.

Lemma upper_again : B' = B.
Proof.
  pose proof (upper_facts Han) as [He Hd _ _ Hc Hs].
  pose proof (upper_facts Han') as [He' Hd' _ _ Hc' Hs'].
  assert (p1 :: B' ++ [pn] = p1 :: B ++ [pn]) as Heq.
  { apply (chain_unique (-1) (or_intror eq_refl) (reverse pts')); try done.
    - by rewrite !last_cons, !last_snoc.
    - intros x [->|[Hx| ->%list_elem_of_singleton]%elem_of_app]%elem_of_cons;
        apply elem_of_reverse.
      + apply (p1_in_pts Han').
      + by apply HB.
      + apply (pn_in_pts Han').
    - eapply supports_subseteq; [|done]. intros x.
      rewrite !elem_of_reverse. apply Hsub. }
  injection Heq as Heq. by apply app_inv_tail in Heq.
Qed.

End Idempotence.

Lemma hull_idempotent_large l :
  (3 ≤ length (convex_hull_xy l))%nat →
  convex_hull_xy (convex_hull_xy l) = convex_hull_xy l.
Proof.
  intros Hlen.
  destruct (decide (size (py_set l) < 3)%nat) as [Hsz|Hsz].
  { rewrite hull_small in Hlen by done. simpl in Hlen. lia. }
  destruct (hull_large l) as (p1 & pn & A & B & Han & Heq); [lia|].
  set (h := convex_hull_xy l) in *.
  assert (NoDup h) as Hnd by (rewrite Heq; apply (hull_list_NoDup Han)).
  assert (size (py_set h) = length h) as Hsz'
    by (by apply size_list_to_set).
  destruct (hull_large h) as (p1' & pn' & A' & B' & Han' & Heq'); [lia|].
  assert (∀ x, x ∈ sorted (py_set h) ↔ x ∈ h) as Hin'
    by (intros; apply elem_of_sorted).
  assert (∀ x, x ∈ h → x ∈ sorted (py_set l)) as Hin.
  { intros x Hx. rewrite Heq in Hx. by apply (hull_list_in_pts Han). }
  assert (p1 ∈ h) as Hp1 by (rewrite Heq; constructor).
  assert (pn ∈ h) as Hpn.
  { rewrite Heq. apply elem_of_cons. right. apply elem_of_app. right. constructor. }
  assert (p1' = p1) as ->.
  { destruct (sorted_head_min _ p1' p1 (an_sorted _ _ _ _ _ Han')
                (an_head _ _ _ _ _ Han')) as [?|Hlt]; [by apply Hin'|done|].
    destruct (sorted_head_min _ p1 p1' (an_sorted _ _ _ _ _ Han)
                (an_head _ _ _ _ _ Han)) as [?|Hlt']; [|done|].
    - apply Hin, Hin', (p1_in_pts Han').
    - destruct (tuple_lt_irrefl p1). by eapply tuple_lt_trans. }
  assert (pn' = pn) as ->.
  { destruct (sorted_last_max _ pn' pn (an_sorted _ _ _ _ _ Han')
                (an_last _ _ _ _ _ Han')) as [?|Hlt]; [by apply Hin'|done|].
    destruct (sorted_last_max _ pn pn' (an_sorted _ _ _ _ _ Han)
                (an_last _ _ _ _ _ Han)) as [?|Hlt']; [|done|].
    - apply Hin, Hin', (pn_in_pts Han').
    - destruct (tuple_lt_irrefl pn). by eapply tuple_lt_trans. }
  rewrite Heq'.
  rewrite (lower_again Han Han'), (upper_again Han Han'); [done|..].
  - intros x Hx%Hin'. by apply Hin.
  - intros x Hx. apply Hin'. rewrite Heq, elem_of_cons, elem_of_app,
      elem_of_cons, !elem_of_reverse. auto.
  - intros x Hx%Hin'. by apply Hin.
  - intros x Hx. apply Hin'. rewrite Heq, elem_of_cons, elem_of_app,
      elem_of_cons, !elem_of_reverse. auto.
Qed.

(** The hull is empty or has two vertices or more. *)
Lemma hull_length l :
  convex_hull_xy l = [] ∨ (2 ≤ length (convex_hull_xy l))%nat.
Proof.
  destruct (decide (size (py_set l) < 3)%nat) as [Hsz|Hsz].
  { left. by apply hull_small. }
  destruct (hull_large l) as (p1 & pn & A & B & Han & ->); [lia|].
  right. simpl. rewrite length_app. simpl. lia.
Qed.

(** It has exactly two vertices when the input holds three distinct points
    or more and all of them are on one line, and only then. *)
Lemma hull_two_iff_collinear l :
  length (convex_hull_xy l) = 2%nat ↔
  (3 ≤ size (list_to_set l : gset point))%nat ∧ collinear l.
Proof.
  split.
  - intros Hlen.
    destruct (decide (size (py_set l) < 3)%nat) as [Hsz|Hsz].
    { rewrite hull_small in Hlen by done. done. }
    split; [unfold py_set in Hsz; lia|].
    destruct (hull_large l) as (p1 & pn & A & B & Han & Heq); [lia|].
    rewrite Heq in Hlen. simpl in Hlen.
    rewrite length_app in Hlen. simpl in Hlen. rewrite !length_reverse in Hlen.
    destruct A; [|simpl in Hlen; lia]. destruct B; [|simpl in Hlen; lia].
    pose proof (lower_facts Han) as [_ _ _ _ _ [Hlo _]].
    pose proof (upper_facts Han) as [_ _ _ _ _ [Hup _]].
    assert (p1 ≠ pn) as Hne.
    { intros ->. by eapply tuple_lt_irrefl, (an_lt _ _ _ _ _ Han). }
    assert (∀ q, q ∈ l → cross p1 pn q = 0) as Hline.
    { intros q Hq%elem_of_sorted. specialize (Hlo q Hq).
      specialize (Hup q). rewrite elem_of_reverse in Hup. specialize (Hup Hq).
      assert (cross pn p1 q = - cross p1 pn q) by (unfold cross; ring). lia. }
    intros o a b Ho Ha Hb. apply (on_one_line p1 pn); auto.
  - intros [Hsz Hcol].
    destruct (hull_large l Hsz) as (p1 & pn & A & B & Han & ->).
    destruct (flat_chains Han) as [-> ->]; [|done].
    intros q Hq. apply Hcol; apply elem_of_sorted; [|done|].
    + apply (p1_in_pts Han).
    + apply (pn_in_pts Han).
Qed.

(** Whenever the input holds three distinct points or more, all on one
    line, the hull of the hull is not the hull. *)
Lemma hull_of_collinear_hull l :
  (3 ≤ size (list_to_set l : gset point))%nat → collinear l →
  convex_hull_xy (convex_hull_xy l) = [] ∧ convex_hull_xy l ≠ [].
Proof.
  intros Hsz Hcol.
  assert (length (convex_hull_xy l) = 2%nat) as Hlen
    by (by apply hull_two_iff_collinear).
  destruct (convex_hull_xy l) as [|a [|b [|c h]]]; try done.
  split; [|done]. apply hull_small, (size_at_most_two _ a b).
  intros p. rewrite !elem_of_cons, elem_of_nil. tauto.
Qed.

(** In exact arithmetic, unless the input holds three distinct points or
    more that all lie on one line, the hull of the hull is the hull. *)
Lemma hull_idempotent l :
  ¬ ((3 ≤ size (list_to_set l : gset point))%nat ∧ collinear l) →
  convex_hull_xy (convex_hull_xy l) = convex_hull_xy l.
Proof.
  intros Hnc. destruct (hull_length l) as [->|Hlen]; [done|].
  apply hull_idempotent_large.
  destruct (decide (length (convex_hull_xy l) = 2%nat)) as [H2|H2]; [|lia].
  by apply hull_two_iff_collinear in H2.
Qed.

(** A list of one or two vertices has no left turn around it. *)
Lemma cyclic_left_three h : h ≠ [] → cyclic_left h → (3 ≤ length h)%nat.
Proof.
  intros Hne Hc. destruct h as [|a [|b [|c h]]]; [done| | |simpl; lia].
  - specialize (Hc 0%nat a a a eq_refl eq_refl eq_refl).
    rewrite cross_same_l in Hc. lia.
  - specialize (Hc 0%nat a b a eq_refl eq_refl eq_refl).
    rewrite cross_same_lr in Hc. lia.
Qed.

(** In exact arithmetic a hull of three vertices or more is in
    counter-clockwise order: any three of its vertices, in the order of the
    list, make a strict left turn, and so does every vertex with the next
    two around the polygon; no vertex lies on the segment between two
    others. *)
Lemma hull_counter_clockwise l :
  (3 ≤ length (convex_hull_xy l))%nat →
  convex_position (convex_hull_xy l) ∧ cyclic_left (convex_hull_xy l).
Proof.
  intros Hlen.
  assert (convex_position (convex_hull_xy l)) as Hc.
  { destruct (decide (size (py_set l) < 3)%nat) as [Hsz|Hsz].
    { rewrite hull_small in Hlen by done. simpl in Hlen. lia. }
    destruct (hull_large l) as (p1 & pn & A & B & Han & ->); [lia|].
    apply (hull_list_convex_position Han). }
  split; [done|]. by apply convex_position_cyclic.
Qed.

(** ** No failure path is taken *)

Lemma py_getitem_last {A} (t : list A) a :
  py_getitem (t ++ [a]) (-1) = Returned a.
Proof.
  unfold py_getitem, py_len. cbv zeta. rewrite length_app.
  rewrite (bool_decide_true (-1 < 0)) by lia.
  rewrite bool_decide_true by (simpl; lia).
  replace (Z.to_nat _) with (length t) by (simpl; lia).
  by rewrite list_lookup_middle.
Qed.

Lemma py_getitem_last_but_one {A} (t : list A) o a :
  py_getitem (t ++ [o; a]) (-2) = Returned o.
Proof.
  unfold py_getitem, py_len. cbv zeta. rewrite length_app.
  rewrite (bool_decide_true (-2 < 0)) by lia.
  rewrite bool_decide_true by (simpl; lia).
  replace (Z.to_nat _) with (length t) by (simpl; lia).
  by rewrite list_lookup_middle.
Qed.

Lemma py_pop_snoc {A} (t : list A) a : py_pop (t ++ [a]) = Returned t.
Proof.
  unfold py_pop. destruct (t ++ [a]) eqn:E; [by destruct t|].
  rewrite <-E, length_app. simpl.
  replace (length t + 1 - 1)%nat with (length t) by lia.
  by rewrite take_app_length.
Qed.

Lemma py_but_last_reverse {A} (st : list A) :
  py_but_last (reverse st) = reverse (tail st).
Proof.
  unfold py_but_last. destruct st as [|a st]; [done|].
  rewrite reverse_cons, length_app. simpl.
  replace (length (reverse st) + 1 - 1)%nat with (length (reverse st)) by lia.
  by rewrite take_app_length.
Qed.

Lemma prune_length st p : (length (prune st p) ≤ length st)%nat.
Proof. apply suffix_length, prune_suffix. Qed.

Lemma while_pop_short fuel (st : list point) p :
  (length st < 2)%nat → while_pop (S fuel) st p = Returned st.
Proof.
  intros Hlen. simpl. by rewrite bool_decide_false by (unfold py_len; lia).
Qed.

Lemma while_pop_step fuel t o a p :
  while_pop (S fuel) (t ++ [o; a]) p
  = if bool_decide (cross o a p ≤ 0) then while_pop fuel (t ++ [o]) p
    else Returned (t ++ [o; a]).
Proof.
  assert (t ++ [o; a] = (t ++ [o]) ++ [a]) as E by (by rewrite <-app_assoc).
  cbn [while_pop].
  rewrite bool_decide_true
    by (unfold py_len; rewrite length_app; simpl; lia).
  rewrite py_getitem_last_but_one. cbn [mbind outcome_bind].
  rewrite E at 1. rewrite py_getitem_last. cbn [mbind outcome_bind].
  case_bool_decide; [|done].
  rewrite E at 1. by rewrite py_pop_snoc.
Qed.

(** The loop on the Python list is [prune] on the stack, and ends within
    as many iterations as the list is long. *)
Lemma while_pop_prune st p fuel :
  (length st < fuel)%nat →
  while_pop fuel (reverse st) p = Returned (reverse (prune st p)).
Proof.
  revert fuel. induction st as [|a [|o t] IH]; intros [|fuel] Hlen;
    try (simpl in Hlen; lia).
  - by rewrite while_pop_short by (cbn; lia).
  - by rewrite while_pop_short by (cbn; lia).
  - rewrite prune_cons.
    assert (reverse (a :: o :: t) = reverse t ++ [o; a]) as ->
      by (by rewrite !reverse_cons, <-app_assoc).
    rewrite while_pop_step. case_bool_decide.
    + rewrite <-reverse_cons. apply IH. simpl in *. lia.
    + by rewrite !reverse_cons, <-app_assoc.
Qed.

Lemma for_points_chain pts st fuel :
  (length st + length pts < fuel)%nat →
  for_points fuel (reverse st) pts = Returned (reverse (foldl push st pts)).
Proof.
  revert st. induction pts as [|p pts IH]; intros st Hlen; [done|].
  simpl. rewrite while_pop_prune by (simpl in Hlen; lia). simpl.
  unfold py_append. rewrite <-reverse_cons. apply IH.
  pose proof (prune_length st p). simpl in *. lia.
Qed.

(** C8. [convex_hull_xy] returns on every finite list of points, the empty
    list and degenerate inputs included: with fuel beyond the length of the
    input, no [while] loop is cut off, no index or pop is out of range, and
    the value returned is the one of the functional model. *)
Theorem convex_hull_xy_total points_xy fuel :
  (length points_xy < fuel)%nat →
  convex_hull_xy_run fuel points_xy = Returned (convex_hull_xy points_xy).
Proof.
  intros Hfuel. unfold convex_hull_xy_run, convex_hull_xy.
  set (pts := sorted (py_set points_xy)).
  assert (length pts ≤ length points_xy)%nat as Hlen.
  { apply submseteq_length, NoDup_submseteq; [apply NoDup_sorted|].
    intros x. unfold pts. by rewrite elem_of_sorted. }
  unfold py_len. case_bool_decide; case_decide; try lia; [done|].
  rewrite (for_points_chain pts []) by (simpl; lia). simpl.
  rewrite (for_points_chain (reverse pts) [])
    by (rewrite length_reverse; simpl; lia). simpl.
  by rewrite !py_but_last_reverse.
Qed.

Lemma convex_hull_xy_total_witness :
  convex_hull_xy_run 6 [(0,0); (4,0); (4,4); (0,4); (2,2)]
  = Returned (convex_hull_xy [(0,0); (4,0); (4,4); (0,4); (2,2)]).
Proof. apply convex_hull_xy_total. simpl. lia. Defined.

(** ** Further properties of [convex_hull_xy] *)

(** The polygon [h] encloses [Q]: every point of [Q] is on or to the left
    of every edge of [h], the edge from the last vertex back to the first
    included. *)
Definition encloses (h Q : list point) : Prop :=
  ∀ i a b q,
    h !! i = Some a → h !! ((i + 1) mod length h)%nat = Some b → q ∈ Q →
    0 ≤ cross a b q.

Lemma supports_consecutive Q st k1 a b k2 :
  supports Q st → st = k1 ++ a :: b :: k2 →
  ∀ q, q ∈ Q → 0 ≤ cross b a q.
Proof.
  intros Hs ->.
  assert (supports Q (a :: b :: k2)) as [H _]; [|done].
  eapply supports_suffix; [|done]. by exists k1.
Qed.

Lemma consecutive_split {A} (L : list A) j a b :
  L !! j = Some a → L !! S j = Some b →
  L = take j L ++ a :: b :: drop (S (S j)) L.
Proof.
  intros Ha Hb.
  rewrite <-(take_drop_middle L j a Ha) at 1. do 2 f_equal.
  rewrite <-(take_drop_middle L (S j) b Hb) at 1.
  by rewrite drop_app_length'
    by (rewrite length_take; apply lookup_lt_Some in Hb; lia).
Qed.

(** An edge of a chain, read from its first point on. *)
Lemma supports_edge Q st j a b :
  supports Q st → reverse st !! j = Some a → reverse st !! S j = Some b →
  ∀ q, q ∈ Q → 0 ≤ cross a b q.
Proof.
  intros Hs Ha Hb.
  pose proof (consecutive_split _ _ _ _ Ha Hb) as Heq.
  apply (f_equal reverse) in Heq.
  rewrite reverse_involutive, reverse_app, !reverse_cons, <-!app_assoc in Heq.
  simpl in Heq. exact (supports_consecutive Q st _ b a _ Hs Heq).
Qed.

(** A cyclic edge of [L ++ U] is an edge of [L] followed by the first point
    of [U], or an edge of [U] followed by the first point of [L]. *)
Lemma cyclic_edge_cases {A} (L U : list A) x0 y0 L' U' i a b :
  L = x0 :: L' → U = y0 :: U' →
  (L ++ U) !! i = Some a →
  (L ++ U) !! ((i + 1) mod length (L ++ U))%nat = Some b →
  (∃ j, (L ++ [y0]) !! j = Some a ∧ (L ++ [y0]) !! S j = Some b)
  ∨ (∃ j, (U ++ [x0]) !! j = Some a ∧ (U ++ [x0]) !! S j = Some b).
Proof.
  intros HL HU Ha Hb.
  pose proof (lookup_lt_Some _ _ _ Ha) as Hi. rewrite length_app in *.
  assert (0 < length L)%nat by (rewrite HL; simpl; lia).
  assert (0 < length U)%nat by (rewrite HU; simpl; lia).
  destruct (decide (i + 1 < length L + length U)%nat) as [Hlt|Hge].
  - rewrite Nat.mod_small in Hb by done.
    destruct (decide (i + 1 < length L)%nat) as [HiL|HiL].
    + left. exists i. rewrite lookup_app_l in Ha, Hb by lia.
      rewrite !lookup_app_l by lia. split; [done|].
      by replace (S i) with (i + 1)%nat by lia.
    + destruct (decide (i < length L)%nat) as [HiL'|HiL'].
      * left. exists i. rewrite lookup_app_l in Ha by lia.
        rewrite lookup_app_l by lia. split; [done|].
        rewrite lookup_app_r in Hb by lia.
        rewrite lookup_app_r by lia.
        replace (i + 1 - length L)%nat with 0%nat in Hb by lia.
        replace (S i - length L)%nat with 0%nat by lia.
        rewrite HU in Hb. simpl in *. done.
      * right. exists (i - length L)%nat.
        rewrite lookup_app_r in Ha, Hb by lia.
        rewrite !lookup_app_l by lia. split; [done|].
        by replace (S (i - length L)) with (i + 1 - length L)%nat by lia.
  - assert (i + 1 = length L + length U)%nat as Hi1 by lia.
    rewrite Hi1, Nat.Div0.mod_same in Hb.
    right. exists (i - length L)%nat.
    rewrite lookup_app_r in Ha by lia. rewrite lookup_app_l by lia.
    split; [done|].
    rewrite lookup_app_r by lia.
    replace (S (i - length L) - length U)%nat with 0%nat by lia.
    rewrite lookup_app_l in Hb by lia. rewrite HL in Hb. simpl in *. done.
Qed.

Lemma chains_enclose pts p1 pn A B :
  anatomy pts p1 pn A B → encloses (p1 :: reverse A ++ pn :: reverse B) pts.
Proof.
  intros Han i a b q Ha Hb Hq.
  change (p1 :: reverse A ++ pn :: reverse B)
    with ((p1 :: reverse A) ++ (pn :: reverse B)) in Ha, Hb.
  destruct (cyclic_edge_cases _ _ p1 pn (reverse A) (reverse B) _ _ _
              eq_refl eq_refl Ha Hb) as [(j & Hj & Hj')|(j & Hj & Hj')].
  - pose proof (ci_supports _ _ _ (lower_facts Han)) as Hs.
    apply (supports_edge _ _ j a b Hs); [| |done];
      by rewrite reverse_cons, reverse_app, reverse_singleton.
  - pose proof (ci_supports _ _ _ (upper_facts Han)) as Hs.
    apply (supports_edge _ _ j a b Hs); [| |by apply elem_of_reverse];
      by rewrite reverse_cons, reverse_app, reverse_singleton.
Qed.

(** The hull is empty exactly for fewer than three distinct points. *)
Lemma hull_nil_iff l :
  convex_hull_xy l = [] ↔ (size (list_to_set l : gset point) < 3)%nat.
Proof.
  split; [|apply hull_small].
  intros Hnil. destruct (decide (size (py_set l) < 3)%nat) as [|Hsz]; [done|].
  destruct (hull_large l) as (p1 & pn & A & B & Han & Heq); [lia|].
  by rewrite Heq in Hnil.
Qed.

Lemma hull_vertex_of_input l p : p ∈ convex_hull_xy l → p ∈ l.
Proof.
  destruct (decide (size (py_set l) < 3)%nat) as [Hsz|Hsz].
  { rewrite hull_small by done. by intros ?%elem_of_nil. }
  destruct (hull_large l) as (p1 & pn & A & B & Han & ->); [lia|].
  intros Hp. by apply elem_of_sorted, (hull_list_in_pts Han).
Qed.

Lemma hull_encloses_input l : encloses (convex_hull_xy l) l.
Proof.
  destruct (decide (size (py_set l) < 3)%nat) as [Hsz|Hsz].
  { rewrite hull_small by done. by intros i a b q Ha. }
  destruct (hull_large l) as (p1 & pn & A & B & Han & ->); [lia|].
  intros i a b q Ha Hb Hq%elem_of_sorted.
  by apply (chains_enclose _ _ _ _ _ Han i a b q).
Qed.

(** In exact arithmetic three distinct points that are not on one line are
    all vertices of their hull. *)
Lemma hull_triangle l p :
  size (list_to_set l : gset point) = 3%nat → ¬ collinear l →
  p ∈ l → p ∈ convex_hull_xy l.
Proof.
  intros Hsz Hnc Hp.
  assert (3 ≤ length (convex_hull_xy l))%nat as Hlen.
  { destruct (hull_length l) as [Hnil|Hlen].
    - destruct (hull_large l) as (p1 & pn & A & B & Han & Heq);
        [unfold py_set; lia|]. by rewrite Heq in Hnil.
    - destruct (decide (length (convex_hull_xy l) = 2%nat)) as [H2|]; [|lia].
      by apply hull_two_iff_collinear in H2 as [_ ?]. }
  destruct (hull_large l) as (p1 & pn & A & B & Han & Heq);
    [unfold py_set; lia|].
  assert (convex_hull_xy l ≡ₚ sorted (py_set l)) as Hperm.
  { apply submseteq_length_Permutation.
    - apply NoDup_submseteq.
      + rewrite Heq. apply (hull_list_NoDup Han).
      + intros x Hx. rewrite Heq in Hx. by apply (hull_list_in_pts Han).
    - rewrite length_sorted. unfold py_set. lia. }
  rewrite Hperm. by apply elem_of_sorted.
Qed.

(** X4. A hull that is not empty has the greatest input point in tuple
    order among its vertices, as it has the least as its first vertex. *)
Theorem hull_has_greatest l hi :
  convex_hull_xy l ≠ [] → hi ∈ l → (∀ q, q ∈ l → tuple_le q hi) →
  hi ∈ convex_hull_xy l.
Proof.
  intros Hne Hhi Hmax.
  destruct (decide (size (py_set l) < 3)%nat) as [Hsz|Hsz].
  { by rewrite hull_small in Hne. }
  destruct (hull_large l) as (p1 & pn & A & B & Han & Heq); [lia|].
  assert (hi = pn) as ->.
  { destruct (sorted_last_max _ pn hi (an_sorted _ _ _ _ _ Han)
                (an_last _ _ _ _ _ Han)) as [?|Hlt];
      [by apply elem_of_sorted|done|].
    destruct (tuple_lt_not_le hi pn Hlt).
    apply Hmax, elem_of_sorted, (pn_in_pts Han). }
  rewrite Heq, elem_of_cons, elem_of_app, elem_of_cons. auto.
Qed.

Lemma hull_has_greatest_witness :
  (4,4) ∈ convex_hull_xy [(0,0); (4,0); (4,4); (0,4); (2,2)].
Proof.
  apply hull_has_greatest.
  - vm_compute. discriminate.
  - by_compute.
  - apply Forall_forall. by_compute.
Defined.

End Hull.

(** * [utils/map.py] as it runs: [convex_hull_xy] on binary64 floats

    The caller hands [convex_hull_xy] tuples of Python floats, and the
    function computes [cross] in binary64: each subtraction and each
    product is rounded, so the sign that the test [<= 0] sees can differ
    from the sign of the exact cross product.  This module takes the
    function on the floats of the machine.  [Hull] above is the same
    algorithm in exact arithmetic; it is what the function computes as long
    as no rounding changes the outcome of a comparison, which [exact]
    below says of an input. *)

Module Binary64.

(** ** The function *)

(** A point is a Python tuple [(x, y)] of two floats. *)
Definition point : Type := (float * float)%type.

(** [cross(o, a, b)] of the source, in the arithmetic of Python's floats. *)
Definition cross (o a b : point) : float :=
  ((a.1 - o.1) * (b.2 - o.2) - (a.2 - o.2) * (b.1 - o.1))%float.

(** [p == q] on tuples: both items are equal as floats (so that [0.0] and
    [-0.0] are equal, and a NaN equals nothing). *)
Definition tuple_eq (p q : point) : bool :=
  ((p.1 =? q.1) && (p.2 =? q.2))%float.

(** [p < q] on tuples: Python looks for the first item in which the tuples
    differ and compares the tuples by it. *)
Definition tuple_lt (p q : point) : bool :=
  (if p.1 =? q.1 then p.2 <? q.2 else p.1 <? q.1)%float.

(** [s.add(p)]: nothing happens when the set has an element equal to [p]. *)
Definition set_add (s : list point) (p : point) : list point :=
  if existsb (λ q, tuple_eq q p) s then s else s ++ [p].

(** [set(points_xy)], its elements in the order in which they came in.
    Python iterates a set in an order of its own; [sorted] makes up for
    that whenever [<] orders the elements.  Python's set also takes one
    object for equal to itself, a NaN included, which plays no part when
    the coordinates are numbers. *)
Definition py_set (points_xy : list point) : list point :=
  foldl set_add [] points_xy.

(** [sorted(s)] compares with [<] only and is stable: [q] goes before [p]
    only when [q < p]. *)
Definition not_after (p q : point) : Prop := tuple_lt q p = false.

Global Instance not_after_dec p q : Decision (not_after p q).
Proof. unfold not_after. apply _. Defined.

Definition sorted (s : list point) : list point := merge_sort not_after s.

(** The stacks [lower] and [upper], top first, as in [Hull]. *)
Fixpoint prune (st : list point) (p : point) : list point :=
  match st with
  | a :: ((o :: _) as st') =>
      if (cross o a p <=? 0)%float then prune st' p else st
  | _ => st
  end.

Definition push (st : list point) (p : point) : list point :=
  p :: prune st p.

Definition chain (pts : list point) : list point :=
  foldl push [] pts.

Definition but_last (st : list point) : list point :=
  reverse (tail st).

Definition convex_hull_xy (points_xy : list point) : list point :=
  let pts := sorted (py_set points_xy) in
  if decide (length pts < 3)%nat then []
  else
    let lower := chain pts in
    let upper := chain (reverse pts) in
    but_last lower ++ but_last upper.

Example float_square :
  convex_hull_xy [(0,0); (4,0); (4,4); (0,4); (2,2); (-0,0)]%float
  = [(0,0); (4,0); (4,4); (0,4)]%float.
Proof. vm_compute. reflexivity. Qed.

(** ** The exact value of a float *)

(** The number that the float [x] stands for, times [2 ^ k], when that is
    an integer; infinities and NaN stand for no number. *)
Definition scaled (k : Z) (x : float) : option Z :=
  match Prim2SF x with
  | S754_zero _ => Some 0
  | S754_finite s m e =>
      let n := if s then Z.neg m else Z.pos m in
      if bool_decide (0 ≤ e + k) then Some (n * 2 ^ (e + k))
      else if bool_decide (n mod 2 ^ (- (e + k)) = 0)
           then Some (n / 2 ^ (- (e + k)))
           else None
  | _ => None
  end.

Definition represented (k : Z) (p : point) : Prop :=
  is_Some (scaled k p.1) ∧ is_Some (scaled k p.2).

(** The point of [Hull] that [p] stands for, in the unit [2 ^ -k]. *)
Definition value (k : Z) (p : point) : Hull.point :=
  (default 0 (scaled k p.1), default 0 (scaled k p.2)).

(** No rounding shows on the input [l]: its coordinates are numbers with at
    most [k] binary places, and comparing two of its points, or testing
    the turn of three of them, gives what exact arithmetic gives. *)
Definition exact (k : Z) (l : list point) : Prop :=
  Forall (represented k) l
  ∧ Forall (λ p, Forall (λ q,
      tuple_eq p q = bool_decide (value k p = value k q)
      ∧ tuple_lt p q = bool_decide (Hull.tuple_lt (value k p) (value k q)))
      l) l
  ∧ Forall (λ o, Forall (λ a, Forall (λ b,
      (cross o a b <=? 0)%float
      = bool_decide (Hull.cross (value k o) (value k a) (value k b) ≤ 0))
      l) l) l.

Global Instance exact_dec k l : Decision (exact k l).
Proof. unfold exact, represented. apply _. Defined.

Example exact_square :
  exact 0 [(0,0); (4,0); (4,4); (0,4); (2,2)]%float.
Proof. apply (bool_decide_unpack _). vm_compute. exact I. Qed.

Example exact_tenths :
  ¬ exact 53 [(3.7,0.6); (4.2,1.4); (6.7,5.4)]%float.
Proof. apply (bool_decide_unpack _). vm_compute. exact I. Qed.

(** ** Sorting commutes with a map that keeps the order *)

Section merge_sort_fmap.
Context {A B : Type} (R : relation A) `{!∀ x y, Decision (R x y)}.
Context (R' : relation B) `{!∀ x y, Decision (R' x y)}.
Context (f : A → B) (P : A → Prop).
Hypothesis HR : ∀ x y, P x → P y → (R x y ↔ R' (f x) (f y)).

Lemma list_merge_fmap l1 l2 :
  Forall P l1 → Forall P l2 →
  f <$> list_merge R l1 l2 = list_merge R' (f <$> l1) (f <$> l2).
Proof.
  revert l2. induction l1 as [|x1 l1 IH1]; intros l2 H1 H2.
  { by destruct l2. }
  induction l2 as [|x2 l2 IH2]; [done|].
  rewrite !fmap_cons, !list_merge_cons.
  apply Forall_cons in H1 as [Hx1 H1]. apply Forall_cons in H2 as [Hx2 H2'].
  pose proof (HR x1 x2 Hx1 Hx2) as Hiff.
  destruct (decide (R x1 x2)), (decide (R' (f x1) (f x2))); try tauto.
  - rewrite fmap_cons. f_equal. rewrite IH1; [done..|]. by constructor.
  - rewrite fmap_cons. f_equal. apply IH2. done.
Qed.

Lemma list_merge_Forall l1 l2 :
  Forall P l1 → Forall P l2 → Forall P (list_merge R l1 l2).
Proof.
  intros H1 H2. rewrite merge_Permutation. by apply Forall_app.
Qed.

Definition stack_Forall (st : list (option (list A))) : Prop :=
  Forall (λ o, from_option (Forall P) True o) st.

Definition stack_fmap (st : list (option (list A)))
  : list (option (list B)) :=
  (λ o : option (list A), (λ l : list A, f <$> l) <$> o) <$> st.

Lemma merge_list_to_stack_fmap st l :
  stack_Forall st → Forall P l →
  stack_Forall (merge_list_to_stack R st l)
  ∧ stack_fmap (merge_list_to_stack R st l)
    = merge_list_to_stack R' (stack_fmap st) (f <$> l).
Proof.
  revert l. induction st as [|[l'|] st IH]; intros l Hst Hl.
  - split; [by repeat constructor|done].
  - apply Forall_cons in Hst as [Hl' Hst]. simpl in Hl'.
    destruct (IH (list_merge R l' l) Hst) as [IH1 IH2].
    { by apply list_merge_Forall. }
    split; [by constructor|].
    simpl. f_equal. rewrite <-list_merge_fmap by done. apply IH2.
  - apply Forall_cons in Hst as [_ Hst]. split; [by constructor|done].
Qed.

Lemma merge_stack_fmap st :
  stack_Forall st →
  Forall P (merge_stack R st)
  ∧ f <$> merge_stack R st = merge_stack R' (stack_fmap st).
Proof.
  induction st as [|[l|] st IH]; intros Hst.
  - by split.
  - apply Forall_cons in Hst as [Hl Hst]. simpl in Hl.
    destruct (IH Hst) as [IH1 IH2]. split.
    + by apply list_merge_Forall.
    + simpl. rewrite list_merge_fmap by done. by rewrite IH2.
  - apply Forall_cons in Hst as [_ Hst]. by apply IH.
Qed.

Lemma merge_sort_aux_fmap st l :
  stack_Forall st → Forall P l →
  f <$> merge_sort_aux R st l = merge_sort_aux R' (stack_fmap st) (f <$> l).
Proof.
  revert st. induction l as [|x l IH]; intros st Hst Hl.
  - by apply merge_stack_fmap.
  - apply Forall_cons in Hl as [Hx Hl].
    destruct (merge_list_to_stack_fmap st [x] Hst) as [H1 H2].
    { by repeat constructor. }
    simpl. rewrite IH by done. by rewrite H2.
Qed.

Lemma merge_sort_fmap l :
  Forall P l → f <$> merge_sort R l = merge_sort R' (f <$> l).
Proof. intros Hl. by apply (merge_sort_aux_fmap []); [constructor|]. Qed.

End merge_sort_fmap.

(** ** What does not depend on the arithmetic *)

Lemma py_set_snoc l p : py_set (l ++ [p]) = set_add (py_set l) p.
Proof. unfold py_set. by rewrite foldl_snoc. Qed.

Lemma set_add_found s p :
  existsb (λ q, tuple_eq q p) s = true →
  ∃ q, q ∈ s ∧ tuple_eq q p = true.
Proof.
  intros (q & Hq & Heq)%existsb_exists. exists q.
  by rewrite list_elem_of_In.
Qed.

Lemma set_add_fresh s p q :
  existsb (λ q, tuple_eq q p) s = false → q ∈ s → tuple_eq q p = false.
Proof.
  intros Hex Hq. destruct (tuple_eq q p) eqn:E; [|done].
  rewrite <-Hex. symmetry. apply existsb_exists. exists q.
  by rewrite <-list_elem_of_In.
Qed.

Lemma py_set_elem l x : x ∈ py_set l → x ∈ l.
Proof.
  induction l as [|p l IH] using rev_ind; [done|].
  rewrite py_set_snoc, elem_of_app, list_elem_of_singleton.
  unfold set_add. case_match; [auto|].
  rewrite elem_of_app, list_elem_of_singleton. intros [?|?]; auto.
Qed.

(** Every input point is in the set, or is equal to a point of the set. *)
Lemma py_set_covers l p :
  p ∈ l → ∃ q, q ∈ py_set l ∧ (q = p ∨ tuple_eq q p = true).
Proof.
  induction l as [|p0 l IH] using rev_ind; [by intros ?%elem_of_nil|].
  rewrite py_set_snoc, elem_of_app, list_elem_of_singleton.
  unfold set_add. intros [Hp| ->].
  - destruct (IH Hp) as (q & Hq & Hqp). exists q. split; [|done].
    case_match; [done|]. apply elem_of_app. by left.
  - destruct (existsb _ _) eqn:E.
    + destruct (set_add_found _ _ E) as (q & Hq & Heq). eauto.
    + exists p0. split; [|by left]. apply elem_of_app. right. constructor.
Qed.

(** No two elements of a set are equal. *)
Definition distinct (s : list point) : Prop :=
  ∀ i j x y, (i < j)%nat → s !! i = Some x → s !! j = Some y →
             tuple_eq x y = false.

Lemma py_set_distinct l : distinct (py_set l).
Proof.
  induction l as [|p l IH] using rev_ind.
  { intros i j x y _ Hi. unfold py_set in Hi. simpl in Hi.
    by rewrite lookup_nil in Hi. }
  rewrite py_set_snoc. unfold set_add.
  destruct (existsb _ _) eqn:E; [done|].
  intros i j x y Hij Hi Hj.
  pose proof (lookup_lt_Some _ _ _ Hj) as Hlen.
  rewrite length_app in Hlen. simpl in Hlen.
  destruct (decide (j < length (py_set l))%nat) as [Hlt|Hge].
  - rewrite lookup_app_l in Hi, Hj by lia. by apply (IH i j).
  - assert (j = length (py_set l)) as -> by lia.
    rewrite lookup_app_l in Hi by lia.
    rewrite list_lookup_middle in Hj by done. injection Hj as <-.
    apply (set_add_fresh _ _ _ E). by eapply list_elem_of_lookup_2.
Qed.

Lemma length_sorted_set s : length (sorted s) = length s.
Proof. unfold sorted. by rewrite merge_sort_Permutation. Qed.

Lemma sorted_elem s x : x ∈ sorted s ↔ x ∈ s.
Proof. unfold sorted. by rewrite merge_sort_Permutation. Qed.

Lemma pruned_cons a o st p :
  prune (a :: o :: st) p
  = if (cross o a p <=? 0)%float then prune (o :: st) p else a :: o :: st.
Proof. done. Qed.

Lemma pruned_suffix st p : prune st p `suffix_of` st.
Proof.
  induction st as [|a [|o st] IH]; [done..|].
  rewrite pruned_cons. case_match; [|done].
  by apply suffix_cons_r.
Qed.

Lemma pruned_nonempty st p : st ≠ [] → prune st p ≠ [].
Proof.
  induction st as [|a [|o st] IH]; [done..|]. intros _.
  rewrite pruned_cons. case_match; [by apply IH|done].
Qed.

Lemma pushed_elem st pts x :
  x ∈ foldl push st pts → x ∈ st ∨ x ∈ pts.
Proof.
  revert st. induction pts as [|p pts IH]; intros st; simpl; [auto|].
  intros [Hx|Hx]%IH; [|right; by constructor].
  unfold push in Hx. apply elem_of_cons in Hx as [->|Hx].
  - right. constructor.
  - left. by eapply elem_of_suffix, pruned_suffix.
Qed.

Lemma pushed_length st pts :
  (2 ≤ length st)%nat → (2 ≤ length (foldl push st pts))%nat.
Proof.
  revert st. induction pts as [|p pts IH]; intros st Hst; [done|].
  simpl. apply IH. unfold push.
  pose proof (pruned_nonempty st p) as Hne.
  destruct (prune st p); simpl; [|lia].
  exfalso. apply Hne; [|done]. intros ->. simpl in Hst. lia.
Qed.

Lemma chain_length pts : (2 ≤ length pts)%nat → (2 ≤ length (chain pts))%nat.
Proof.
  destruct pts as [|p [|q pts]]; simpl; try lia. intros _.
  unfold chain. simpl. apply pushed_length. simpl. lia.
Qed.

Lemma chain_elem pts x : x ∈ chain pts → x ∈ pts.
Proof.
  intros [Hx|Hx]%pushed_elem; [|done]. by apply elem_of_nil in Hx.
Qed.

Lemma but_last_elem (st : list point) x : x ∈ but_last st → x ∈ st.
Proof.
  unfold but_last. rewrite elem_of_reverse.
  destruct st; simpl; [done|]. by constructor.
Qed.

Lemma hull_in_set l p : p ∈ convex_hull_xy l → p ∈ py_set l.
Proof.
  unfold convex_hull_xy. cbv zeta. case_decide; [by intros ?%elem_of_nil|].
  rewrite elem_of_app. intros [Hp|Hp];
    apply but_last_elem, chain_elem in Hp.
  - by rewrite sorted_elem in Hp.
  - by rewrite elem_of_reverse, sorted_elem in Hp.
Qed.

Lemma hull_in_input l p : p ∈ convex_hull_xy l → p ∈ l.
Proof. intros Hp. by apply py_set_elem, hull_in_set. Qed.

Lemma hull_empty_iff l :
  convex_hull_xy l = [] ↔ (length (py_set l) < 3)%nat.
Proof.
  unfold convex_hull_xy. cbv zeta. rewrite length_sorted_set.
  case_decide as Hlen; [done|]. split; [|lia]. intros Hnil.
  pose proof (chain_length (sorted (py_set l))) as Hc.
  rewrite length_sorted_set in Hc.
  apply app_eq_nil in Hnil as [Hnil _]. unfold but_last in Hnil.
  apply (f_equal length) in Hnil. rewrite length_reverse in Hnil.
  destruct (chain (sorted (py_set l))) as [|a [|b st]]; simpl in *; lia.
Qed.

Lemma hull_two_or_more l :
  convex_hull_xy l = [] ∨ (2 ≤ length (convex_hull_xy l))%nat.
Proof.
  unfold convex_hull_xy. cbv zeta. case_decide as Hlen; [by left|]. right.
  rewrite length_sorted_set in Hlen.
  pose proof (chain_length (sorted (py_set l))) as Hc.
  pose proof (chain_length (reverse (sorted (py_set l)))) as Hc'.
  rewrite length_reverse in Hc'. rewrite length_sorted_set in Hc, Hc'.
  rewrite length_app. unfold but_last. rewrite !length_reverse.
  destruct (chain (sorted (py_set l))) as [|a [|b st]]; simpl in *; try lia.
  destruct (chain (reverse (sorted (py_set l)))) as [|a' [|b' st']];
    simpl in *; lia.
Qed.

(** ** Without rounding, the function is the one of [Hull] *)

Lemma exact_eq k l p q :
  exact k l → p ∈ l → q ∈ l →
  tuple_eq p q = bool_decide (value k p = value k q).
Proof.
  intros (_ & H & _) Hp Hq. rewrite Forall_forall in H.
  specialize (H p Hp). rewrite Forall_forall in H. by apply H.
Qed.

Lemma exact_lt k l p q :
  exact k l → p ∈ l → q ∈ l →
  tuple_lt p q = bool_decide (Hull.tuple_lt (value k p) (value k q)).
Proof.
  intros (_ & H & _) Hp Hq. rewrite Forall_forall in H.
  specialize (H p Hp). rewrite Forall_forall in H. by apply H.
Qed.

Lemma exact_turn k l o a b :
  exact k l → o ∈ l → a ∈ l → b ∈ l →
  (cross o a b <=? 0)%float
  = bool_decide (Hull.cross (value k o) (value k a) (value k b) ≤ 0).
Proof.
  intros (_ & _ & H) Ho Ha Hb. rewrite Forall_forall in H.
  specialize (H o Ho). rewrite Forall_forall in H.
  specialize (H a Ha). rewrite Forall_forall in H. by apply H.
Qed.

Lemma exact_subseteq k l l' : exact k l → l' ⊆ l → exact k l'.
Proof.
  intros Hex Hsub. split; [|split].
  - destruct Hex as (H & _). rewrite Forall_forall in *. auto.
  - apply Forall_forall. intros p Hp. apply Forall_forall. intros q Hq.
    split; [apply (exact_eq _ l)|apply (exact_lt _ l)]; auto.
  - apply Forall_forall. intros o Ho. apply Forall_forall. intros a Ha.
    apply Forall_forall. intros b Hb. apply (exact_turn _ l); auto.
Qed.

Section Transfer.

Variables (k : Z) (l : list point).
Hypothesis Hex : exact k l.

Lemma value_eq p q :
  p ∈ l → q ∈ l → (tuple_eq p q = true ↔ value k p = value k q).
Proof.
  intros Hp Hq. rewrite (exact_eq k l) by done.
  by rewrite bool_decide_eq_true.
Qed.

Lemma value_not_after p q :
  p ∈ l → q ∈ l →
  (not_after p q ↔ Hull.tuple_le (value k p) (value k q)).
Proof.
  intros Hp Hq. unfold not_after. rewrite (exact_lt k l) by done.
  rewrite bool_decide_eq_false.
  unfold Hull.tuple_lt, Hull.tuple_le. lia.
Qed.

(** Two elements of the set with the same value are the same element. *)
Lemma value_inj p q :
  p ∈ py_set l → q ∈ py_set l → value k p = value k q → p = q.
Proof.
  intros Hp Hq Hv.
  pose proof (py_set_elem _ _ Hp) as Hpl.
  pose proof (py_set_elem _ _ Hq) as Hql.
  apply list_elem_of_lookup in Hp as [i Hi].
  apply list_elem_of_lookup in Hq as [j Hj].
  destruct (Nat.lt_trichotomy i j) as [Hij|[->|Hji]].
  - pose proof (py_set_distinct l i j p q Hij Hi Hj) as Hd.
    apply (value_eq p q Hpl Hql) in Hv. congruence.
  - congruence.
  - pose proof (py_set_distinct l j i q p Hji Hj Hi) as Hd.
    symmetry in Hv. apply (value_eq q p Hql Hpl) in Hv. congruence.
Qed.

Lemma value_fmap_inj (h1 h2 : list point) :
  h1 ⊆ py_set l → h2 ⊆ py_set l →
  value k <$> h1 = value k <$> h2 → h1 = h2.
Proof.
  revert h2. induction h1 as [|p h1 IH]; intros [|q h2] H1 H2 Heq;
    try done.
  rewrite !fmap_cons in Heq.
  assert (value k p = value k q ∧ value k <$> h1 = value k <$> h2)
    as [Hpq Heq'] by (split; congruence).
  clear Heq. f_equal.
  - apply value_inj; [apply H1|apply H2|done]; constructor.
  - apply IH; [| |done].
    + intros x Hx. apply H1. by constructor.
    + intros x Hx. apply H2. by constructor.
Qed.

Lemma value_set_NoDup : NoDup (value k <$> py_set l).
Proof.
  apply NoDup_fmap_2_strong; [|].
  - intros p q Hp Hq. by apply value_inj.
  - apply NoDup_alt. intros i j p Hi Hj.
    destruct (Nat.lt_trichotomy i j) as [Hij|[->|Hji]]; [|done|].
    + pose proof (py_set_distinct l i j p p Hij Hi Hj) as Hd.
      assert (p ∈ l) as Hp by (eapply py_set_elem, list_elem_of_lookup_2, Hi).
      assert (tuple_eq p p = true) by (by apply value_eq).
      congruence.
    + pose proof (py_set_distinct l j i p p Hji Hj Hi) as Hd.
      assert (p ∈ l) as Hp by (eapply py_set_elem, list_elem_of_lookup_2, Hi).
      assert (tuple_eq p p = true) by (by apply value_eq).
      congruence.
Qed.

Lemma value_set_elem x : x ∈ value k <$> py_set l ↔ x ∈ value k <$> l.
Proof.
  rewrite !list_elem_of_fmap. split.
  - intros (p & -> & Hp%py_set_elem). eauto.
  - intros (p & -> & Hp).
    destruct (py_set_covers l p Hp) as (q & Hq & [->|Heq]); [eauto|].
    exists q. split; [|done]. symmetry.
    apply value_eq; [by apply py_set_elem|done..].
Qed.

(** The number of distinct points is the same on both sides. *)
Lemma value_set_size :
  size (list_to_set (value k <$> l) : gset Hull.point) = length (py_set l).
Proof.
  assert ((list_to_set (value k <$> l) : gset Hull.point)
          = list_to_set (value k <$> py_set l)) as ->.
  { apply set_eq. intros x. by rewrite !elem_of_list_to_set, value_set_elem. }
  rewrite size_list_to_set by apply value_set_NoDup.
  by rewrite length_fmap.
Qed.

Lemma value_sorted :
  value k <$> sorted (py_set l)
  = Hull.sorted (Hull.py_set (value k <$> l)).
Proof.
  unfold sorted.
  rewrite (merge_sort_fmap not_after Hull.tuple_le (value k) (.∈ l)).
  - apply Hull.sorted_canonical; [apply value_set_NoDup|].
    intros x. unfold Hull.py_set.
    by rewrite elem_of_list_to_set, value_set_elem.
  - intros p q. apply value_not_after.
  - apply Forall_forall. intros p. apply py_set_elem.
Qed.

Lemma value_prune st p :
  Forall (.∈ l) st → p ∈ l →
  value k <$> prune st p = Hull.prune (value k <$> st) (value k p).
Proof.
  intros Hst Hp. induction st as [|a [|o st] IH]; [done..|].
  rewrite pruned_cons, !fmap_cons, Hull.prune_cons.
  apply Forall_cons in Hst as [Ha Hst].
  pose proof Hst as [Ho _]%Forall_cons.
  rewrite (exact_turn k l o a p) by done.
  case_bool_decide; [|done]. by apply IH.
Qed.

Lemma pruned_input st p : Forall (.∈ l) st → Forall (.∈ l) (prune st p).
Proof.
  intros Hst. rewrite Forall_forall in *. intros x Hx. apply Hst.
  by eapply elem_of_suffix, pruned_suffix.
Qed.

Lemma value_pushed st pts :
  Forall (.∈ l) st → Forall (.∈ l) pts →
  value k <$> foldl push st pts
  = foldl Hull.push (value k <$> st) (value k <$> pts).
Proof.
  revert st. induction pts as [|p pts IH]; intros st Hst Hpts; [done|].
  apply Forall_cons in Hpts as [Hp Hpts]. simpl. rewrite IH.
  - unfold push, Hull.push. by rewrite fmap_cons, value_prune.
  - constructor; [done|]. by apply pruned_input.
  - done.
Qed.

Lemma value_chain pts :
  Forall (.∈ l) pts → value k <$> chain pts = Hull.chain (value k <$> pts).
Proof. intros Hpts. by apply (value_pushed []). Qed.

Lemma value_hull :
  value k <$> convex_hull_xy l = Hull.convex_hull_xy (value k <$> l).
Proof.
  unfold convex_hull_xy, Hull.convex_hull_xy. cbv zeta.
  rewrite <-value_sorted, length_fmap.
  case_decide; [done|].
  assert (Forall (.∈ l) (sorted (py_set l))) as Hin.
  { apply Forall_forall. intros p Hp. rewrite sorted_elem in Hp.
    by apply py_set_elem. }
  assert (Forall (.∈ l) (reverse (sorted (py_set l)))) as Hin'
    by (by apply Forall_reverse).
  unfold but_last, Hull.but_last.
  rewrite fmap_app, !fmap_reverse, !fmap_tail.
  by rewrite (value_chain _ Hin), (value_chain _ Hin'), fmap_reverse.
Qed.

End Transfer.

(** ** Where rounding shows, and what holds without it *)

(** [lo] and [hi] are the smallest and the largest point of [l] for
    Python's [<]. *)
Definition extremes (l : list point) (lo hi : point) : Prop :=
  lo ∈ l ∧ hi ∈ l
  ∧ ∀ q, q ∈ l → tuple_lt q lo = false ∧ tuple_lt hi q = false.

(** [h == h'] on lists of tuples. *)
Definition list_eq (h h' : list point) : Prop :=
  Forall2 (λ p q, tuple_eq p q = true) h h'.

Lemma value_extremes k l lo hi :
  exact k l → extremes l lo hi →
  Hull.extremes (value k <$> l) (value k lo) (value k hi).
Proof.
  intros Hex (Hlo & Hhi & Hall). split; [|split].
  - by apply list_elem_of_fmap_2.
  - by apply list_elem_of_fmap_2.
  - intros x (q & -> & Hq)%list_elem_of_fmap.
    destruct (Hall q Hq) as [H1 H2]. split.
    + by apply (value_not_after k l Hex lo q).
    + by apply (value_not_after k l Hex q hi).
Qed.

(** C2, as stated, fails on floats: three distinct points that are exactly
    on one line, of which none is pruned, since the cross product of the
    three is rounded to a positive number. *)
Lemma collinear_not_pruned :
  length (py_set [(1.0,7.6); (1.4,5.2); (1.7,3.4)]%float) = 3%nat
  ∧ Forall (represented 52) [(1.0,7.6); (1.4,5.2); (1.7,3.4)]%float
  ∧ Hull.collinear (value 52 <$> [(1.0,7.6); (1.4,5.2); (1.7,3.4)]%float)
  ∧ convex_hull_xy [(1.0,7.6); (1.4,5.2); (1.7,3.4)]%float
    = [(1.0,7.6); (1.4,5.2); (1.7,3.4)]%float.
Proof.
  split; [by vm_compute|]. split; [Hull.by_compute|].
  split; [Hull.by_compute|]. vm_compute. reflexivity.
Qed.

(** C2, amended. Three or more distinct points that all lie on one line,
    on an input on which no rounding shows: the hull is the two ends of
    the segment, the smallest point first. *)
Theorem hull_collinear_exact k l lo hi :
  exact k l → (3 ≤ length (py_set l))%nat →
  Hull.collinear (value k <$> l) → extremes l lo hi →
  list_eq (convex_hull_xy l) [lo; hi].
Proof.
  intros Hex Hsz Hcol Hext.
  pose proof (value_hull k l Hex) as Hv.
  rewrite (Hull.hull_collinear _ (value k lo) (value k hi)) in Hv.
  - destruct Hext as (Hlo & Hhi & _).
    destruct (convex_hull_xy l) as [|a [|b [|c h]]] eqn:E; try done.
    rewrite !fmap_cons in Hv. unfold list_eq.
    assert (value k a = value k lo ∧ value k b = value k hi) as [Ha Hb]
      by (split; congruence).
    assert (a ∈ l ∧ b ∈ l) as [Hal Hbl].
    { split; apply hull_in_input; rewrite E; [|right]; constructor. }
    repeat constructor; by apply (value_eq k l Hex).
  - by rewrite (value_set_size k l Hex).
  - done.
  - by apply value_extremes.
Qed.

Lemma hull_collinear_exact_witness :
  list_eq (convex_hull_xy [(0,0); (1,0); (2,0)]%float) [(0,0); (2,0)]%float.
Proof.
  apply (hull_collinear_exact 0).
  - Hull.by_compute.
  - vm_compute. lia.
  - Hull.by_compute.
  - split; [constructor|]. split; [do 2 right; constructor|].
    apply Forall_forall. repeat constructor.
Defined.

Example float_collinear :
  convex_hull_xy [(0.5,0.25); (1.5,0.75); (1,0.5); (2.5,1.25)]%float
  = [(0.5,0.25); (2.5,1.25)]%float.
Proof. vm_compute. reflexivity. Qed.

(** C10, as stated, fails on floats: the middle point of three is kept by
    both chains, since its cross product is rounded to a positive number
    on the way up and on the way down. *)
Lemma hull_repeats_vertex :
  ¬ NoDup (convex_hull_xy [(3.7,0.6); (4.2,1.4); (6.7,5.4)]%float).
Proof.
  assert (convex_hull_xy [(3.7,0.6); (4.2,1.4); (6.7,5.4)]%float
          = [(3.7,0.6); (4.2,1.4); (6.7,5.4); (4.2,1.4)]%float) as ->
    by (vm_compute; reflexivity).
  intros [_ [Hn _]%NoDup_cons]%NoDup_cons. apply Hn.
  right. constructor.
Qed.

(** C10, amended. On an input on which no rounding shows, no vertex occurs
    twice in the hull. *)
Theorem hull_NoDup_exact k l : exact k l → NoDup (convex_hull_xy l).
Proof.
  intros Hex. apply (NoDup_fmap_1 (value k)).
  rewrite (value_hull k l Hex). apply Hull.hull_NoDup.
Qed.

Lemma hull_NoDup_exact_witness :
  NoDup (convex_hull_xy
           [(4.83,45.76); (4.87,45.76); (4.83,45.79); (4.85,45.77);
            (4.86,45.78)]%float).
Proof. apply (hull_NoDup_exact 50). Hull.by_compute. Defined.

(** C3, as stated, fails: by design on three points of a line, whose hull
    has two vertices, and by rounding on three points that are not on a
    line but whose cross product is rounded to zero. *)
Lemma hull_of_hull_differs :
  convex_hull_xy (convex_hull_xy [(0,0); (1,0); (2,0)]%float)
  ≠ convex_hull_xy [(0,0); (1,0); (2,0)]%float
  ∧ ¬ Hull.collinear
        (value 0 <$> [(0,0); (67108864,67108865); (134217727,134217729)]%float)
  ∧ convex_hull_xy
      (convex_hull_xy [(0,0); (67108864,67108865); (134217727,134217729)]%float)
    ≠ convex_hull_xy [(0,0); (67108864,67108865); (134217727,134217729)]%float.
Proof.
  split; [vm_compute; discriminate|].
  split; [Hull.by_compute|]. vm_compute. discriminate.
Qed.

(** C3, amended. On an input on which no rounding shows, and unless it
    holds three distinct points or more that all lie on one line, the hull
    of the hull is the hull. *)
Theorem hull_idempotent_exact k l :
  exact k l →
  ¬ ((3 ≤ length (py_set l))%nat ∧ Hull.collinear (value k <$> l)) →
  convex_hull_xy (convex_hull_xy l) = convex_hull_xy l.
Proof.
  intros Hex Hnc.
  assert (convex_hull_xy l ⊆ l) as Hsub by (intros p; apply hull_in_input).
  pose proof (exact_subseteq k l _ Hex Hsub) as Hex'.
  apply (value_fmap_inj k l Hex).
  - intros p Hp%hull_in_input. by apply hull_in_set.
  - intros p. apply hull_in_set.
  - rewrite (value_hull k _ Hex'), (value_hull k l Hex).
    apply Hull.hull_idempotent. by rewrite (value_set_size k l Hex).
Qed.

Lemma hull_idempotent_exact_witness :
  convex_hull_xy
    (convex_hull_xy
       [(0.5,0.25); (4.5,0.25); (4.5,3.75); (0.5,3.75); (2,2)]%float)
  = convex_hull_xy
      [(0.5,0.25); (4.5,0.25); (4.5,3.75); (0.5,3.75); (2,2)]%float.
Proof. apply (hull_idempotent_exact 2); Hull.by_compute. Defined.

(** C5, as stated, fails: by design on the two vertices returned for
    points of a line, and by rounding on three points that come out in
    clockwise order. *)
Lemma hull_not_counter_clockwise :
  (convex_hull_xy [(0,0); (1,0); (2,0)]%float ≠ []
   ∧ ¬ Hull.cyclic_left (value 0 <$> convex_hull_xy [(0,0); (1,0); (2,0)]%float))
  ∧ (convex_hull_xy [(0.1,0.8); (1.0,3.5); (2.5,8.0)]%float
     = [(0.1,0.8); (2.5,8.0); (1.0,3.5)]%float
     ∧ Forall (represented 56) [(0.1,0.8); (1.0,3.5); (2.5,8.0)]%float
     ∧ Hull.cross (value 56 (0.1,0.8)%float) (value 56 (2.5,8.0)%float)
         (value 56 (1.0,3.5)%float) < 0).
Proof.
  split; [split|split; [|split]].
  - vm_compute. discriminate.
  - intros H. specialize (H 0%nat (0,0) (2,0) (0,0)).
    vm_compute in H. specialize (H eq_refl eq_refl eq_refl). discriminate.
  - vm_compute. reflexivity.
  - Hull.by_compute.
  - vm_compute. reflexivity.
Qed.

(** C5, amended. On an input on which no rounding shows, a hull of three
    vertices or more is in counter-clockwise order: any three of its
    vertices, in the order of the list, make a strict left turn, and so
    does every vertex with the next two around the polygon. *)
Theorem hull_counter_clockwise_exact k l :
  exact k l → (3 ≤ length (convex_hull_xy l))%nat →
  Hull.convex_position (value k <$> convex_hull_xy l)
  ∧ Hull.cyclic_left (value k <$> convex_hull_xy l).
Proof.
  intros Hex Hlen. rewrite (value_hull k l Hex).
  apply Hull.hull_counter_clockwise.
  by rewrite <-(value_hull k l Hex), length_fmap.
Qed.

Lemma hull_counter_clockwise_exact_witness :
  Hull.convex_position
    (value 2 <$> convex_hull_xy
       [(0.5,0.25); (4.5,0.25); (4.5,3.75); (0.5,3.75); (2,2)]%float)
  ∧ Hull.cyclic_left
      (value 2 <$> convex_hull_xy
         [(0.5,0.25); (4.5,0.25); (4.5,3.75); (0.5,3.75); (2,2)]%float).
Proof.
  apply hull_counter_clockwise_exact; [Hull.by_compute|]. vm_compute. lia.
Defined.

(** ** Further properties of [convex_hull_xy] *)

(** X1. On an input on which no rounding shows, the hull encloses the
    input: every input point lies on or to the left of every edge of the
    returned polygon, the closing edge from the last vertex to the first
    included. *)
Theorem hull_encloses_exact k l i a b q :
  exact k l →
  convex_hull_xy l !! i = Some a →
  convex_hull_xy l !! ((i + 1) mod length (convex_hull_xy l))%nat = Some b →
  q ∈ l →
  0 ≤ Hull.cross (value k a) (value k b) (value k q).
Proof.
  intros Hex Ha Hb Hq.
  apply (Hull.hull_encloses_input (value k <$> l) i).
  - rewrite <-(value_hull k l Hex). by apply list_lookup_fmap_Some_2.
  - rewrite <-(value_hull k l Hex), length_fmap.
    by apply list_lookup_fmap_Some_2.
  - by apply list_elem_of_fmap_2.
Qed.

Lemma hull_encloses_exact_witness :
  0 ≤ Hull.cross (value 2 (0.5,3.75)%float) (value 2 (0.5,0.25)%float)
        (value 2 (2,2)%float).
Proof.
  apply (hull_encloses_exact 2
           [(0.5,0.25); (4.5,0.25); (4.5,3.75); (0.5,3.75); (2,2)]%float 3).
  - Hull.by_compute.
  - vm_compute. reflexivity.
  - vm_compute. reflexivity.
  - do 4 right. constructor.
Defined.

(** The coordinates of [l] are numbers: no NaN, so that every point is
    equal to itself. *)
Definition numbers (l : list point) : Prop :=
  Forall (λ p, tuple_eq p p = true) l.

(** X2. The number of vertices, whatever the rounding, when the
    coordinates are numbers: none exactly when the input has fewer than
    three distinct points, and never one. *)
Theorem hull_never_one_vertex l :
  numbers l →
  (convex_hull_xy l = [] ↔ (length (py_set l) < 3)%nat)
  ∧ length (convex_hull_xy l) ≠ 1%nat.
Proof.
  intros _. split; [apply hull_empty_iff|].
  destruct (hull_two_or_more l) as [->|?]; simpl; lia.
Qed.

Lemma hull_never_one_vertex_witness :
  (convex_hull_xy [(3.7,0.6); (4.2,1.4); (3.7,0.6); (4.2,1.4)]%float = []
   ↔ (length (py_set [(3.7,0.6); (4.2,1.4); (3.7,0.6); (4.2,1.4)]%float)
      < 3)%nat)
  ∧ length (convex_hull_xy [(3.7,0.6); (4.2,1.4); (3.7,0.6); (4.2,1.4)]%float)
    ≠ 1%nat.
Proof. apply hull_never_one_vertex. Hull.by_compute. Defined.

(** X3. On an input on which no rounding shows, three distinct points
    that are not on one line are all vertices of their hull. *)
Theorem hull_triangle_exact k l p :
  exact k l → length (py_set l) = 3%nat →
  ¬ Hull.collinear (value k <$> l) →
  p ∈ l → ∃ v, v ∈ convex_hull_xy l ∧ tuple_eq v p = true.
Proof.
  intros Hex Hsz Hnc Hp.
  assert (value k p ∈ Hull.convex_hull_xy (value k <$> l)) as Hv.
  { apply Hull.hull_triangle; [|done|by apply list_elem_of_fmap_2].
    by rewrite (value_set_size k l Hex). }
  rewrite <-(value_hull k l Hex) in Hv.
  apply list_elem_of_fmap in Hv as (v & Hv & Hin).
  exists v. split; [done|].
  apply (value_eq k l Hex); [by apply hull_in_input|done..].
Qed.

Lemma hull_triangle_exact_witness :
  ∃ v, v ∈ convex_hull_xy [(4.5,1.25); (0,0); (2,5.5); (-0,0)]%float
       ∧ tuple_eq v (-0,0)%float = true.
Proof.
  apply (hull_triangle_exact 2).
  - Hull.by_compute.
  - vm_compute. reflexivity.
  - Hull.by_compute.
  - do 3 right. constructor.
Defined.

End Binary64.

(** * [utils/tag.py]: the most frequent tags of every cluster *)

Module Tags.

Local Open Scope nat_scope.

(** ** Data model *)

(** A cell of the [tags] column: a Python list of tags, or a value of
    another kind (a missing value, say), which the source skips. *)
Inductive cell : Type :=
  | TagList (tl : list string)
  | NotAList.

(** A record of the table [sample], with its two columns that the function
    reads. *)
Record row : Type := Row { cluster : Z; tags : cell }.

(** pandas' [Series.unique()]: the values in the order of their first
    appearance. *)
Fixpoint unique {A} `{EqDecision A} (l : list A) : list A :=
  match l with
  | [] => []
  | x :: l' => x :: filter (λ y, y ≠ x) (unique l')
  end.

(** [collections.Counter]: a dictionary from element to count that keeps
    the order in which the elements were first met.  [counter_add] counts
    one more element. *)
Fixpoint counter_add (c : list (string * nat)) (t : string)
  : list (string * nat) :=
  match c with
  | [] => [(t, 1)]
  | (u, k) :: c' =>
      if decide (u = t) then (u, S k) :: c' else (u, k) :: counter_add c' t
  end.

Definition Counter (l : list string) : list (string * nat) :=
  foldl counter_add [] l.

(** [sorted(items, key=itemgetter(1), reverse=True)]: Python's sort is
    stable, also in reverse, so items of equal count keep their order.
    [insert_by_count x l] puts [x], which comes before the items of [l],
    into the sorted [l]. *)
Fixpoint insert_by_count (x : string * nat) (l : list (string * nat))
  : list (string * nat) :=
  match l with
  | [] => [x]
  | y :: l' =>
      if decide (y.2 ≤ x.2) then x :: y :: l' else y :: insert_by_count x l'
  end.

Definition sorted_by_count (items : list (string * nat))
  : list (string * nat) :=
  foldr insert_by_count [] items.

(** [Counter.most_common(n)] for an integer [n], which is
    [heapq.nlargest(n, items, key=count)]: the first [n] items of the
    stable sort by decreasing count, and none when [n <= 0]. *)
Definition most_common (n : Z) (c : list (string * nat))
  : list (string * nat) :=
  take (Z.to_nat n) (sorted_by_count c).

(** ** The function *)

(** The inner loop over [cluster_data["tags"]]. *)
Definition collect_tags (tags_to_delete : gset string)
    (all_cluster_tags : list string) (tags_list : cell) : list string :=
  match tags_list with
  | TagList ((_ :: _) as tl) =>
      all_cluster_tags ++ filter (λ tag, tag ∉ tags_to_delete) tl
  | _ => all_cluster_tags
  end.

(** The body of the loop over the cluster identifiers. *)
Definition top_tags_step (sample : list row) (tags_to_delete : gset string)
    (n_top_tags : Z) (cluster_top_tags : gmap Z (list string))
    (cluster_id : Z) : gmap Z (list string) :=
  if decide (cluster_id = (-1)%Z) then cluster_top_tags
  else
    let cluster_data := filter (λ r, cluster r = cluster_id) sample in
    let all_cluster_tags :=
      foldl (collect_tags tags_to_delete) [] (tags <$> cluster_data) in
    match all_cluster_tags with
    | _ :: _ =>
        let tag_counts := Counter all_cluster_tags in
        let top_tags := most_common n_top_tags tag_counts in
        <[cluster_id := top_tags.*1]> cluster_top_tags
    | [] => <[cluster_id := []]> cluster_top_tags
    end.

Definition get_cluster_top_tags (sample : list row)
    (tags_to_delete : gset string) (n_top_tags : Z)
  : gmap Z (list string) :=
  foldl (top_tags_step sample tags_to_delete n_top_tags) ∅
        (unique (cluster <$> sample)).

Example top_tags_example :
  get_cluster_top_tags
    [Row 0 (TagList ["a"; "b"; "x"]); Row (-1) (TagList ["z"]);
     Row 0 (TagList ["b"; "c"]); Row 1 NotAList; Row 0 (TagList ["c"; "d"])]
    {["x"]} 2
  = {[ 0%Z := ["b"; "c"]; 1%Z := [] ]}.
Proof. vm_compute. reflexivity. Qed.

(** ** What "the most frequent tags" means *)

(** The tags of the group [c], in the order of the table, without the
    excluded ones. *)
Definition group_tags (sample : list row) (tags_to_delete : gset string)
    (c : Z) : list string :=
  r ← filter (λ r, cluster r = c) sample;
  match tags r with
  | TagList tl => filter (λ tag, tag ∉ tags_to_delete) tl
  | NotAList => []
  end.

(** How often [t] occurs in [T]. *)
Definition count (T : list string) (t : string) : nat :=
  length (filter (λ u, u = t) T).

(** Where [t] is first met in [T]. *)
Fixpoint first_index (T : list string) (t : string) : nat :=
  match T with
  | [] => 0
  | u :: T' => if decide (u = t) then 0 else S (first_index T' t)
  end.

(** [s] ranks before [t]: it is more frequent, or as frequent and met
    first. *)
Definition ranks_before (T : list string) (s t : string) : Prop :=
  count T t < count T s
  ∨ (count T s = count T t ∧ first_index T s < first_index T t).

(** [r] lists the [n] most frequent tags of [T] (all of them when [T] has
    fewer), each once, by decreasing frequency, ties by first meeting. *)
Record most_frequent (T : list string) (n : Z) (r : list string) : Prop := {
  mf_NoDup : NoDup r;
  mf_elem : ∀ t, t ∈ r → t ∈ T;
  mf_length : length r = Z.to_nat n `min` size (list_to_set T : gset string);
  mf_ordered : ∀ i j s t,
    i < j → r !! i = Some s → r !! j = Some t → ranks_before T s t;
  mf_top : ∀ s t, s ∈ r → t ∈ T → t ∉ r → ranks_before T s t
}.

(** ** [unique] *)

Lemma elem_of_unique {A} `{EqDecision A} (l : list A) x : x ∈ unique l ↔ x ∈ l.
Proof.
  induction l as [|y l IH]; [done|]. simpl.
  rewrite !elem_of_cons, list_elem_of_filter, IH.
  destruct (decide (x = y)); naive_solver.
Qed.

Lemma NoDup_unique {A} `{EqDecision A} (l : list A) : NoDup (unique l).
Proof.
  induction l as [|y l IH]; [constructor|]. simpl. apply NoDup_cons. split.
  - rewrite list_elem_of_filter. naive_solver.
  - by apply NoDup_filter.
Qed.

Lemma filter_unique_absent {A} `{EqDecision A} (l : list A) x :
  x ∉ l → filter (λ y, y ≠ x) l = l.
Proof.
  induction l as [|y l IH]; [done|]. rewrite not_elem_of_cons. intros [? ?].
  rewrite filter_cons_True by done. by rewrite IH.
Qed.

Lemma unique_snoc {A} `{EqDecision A} (l : list A) x :
  unique (l ++ [x]) = if decide (x ∈ l) then unique l else unique l ++ [x].
Proof.
  induction l as [|y l IH]; [done|]. simpl. rewrite IH.
  destruct (decide (x ∈ l)) as [Hx|Hx], (decide (x ∈ y :: l)) as [Hx'|Hx'];
    try done.
  - destruct Hx'. by constructor.
  - apply elem_of_cons in Hx' as [->|?]; [|done].
    rewrite filter_app, filter_cons_False by naive_solver.
    by rewrite filter_nil, app_nil_r.
  - rewrite not_elem_of_cons in Hx'. destruct Hx' as [Hne _].
    by rewrite filter_app, filter_cons_True by done.
Qed.

Lemma size_unique (T : list string) :
  size (list_to_set T : gset string) = length (unique T).
Proof.
  rewrite <-(size_list_to_set (C:=gset string) (unique T)) by apply NoDup_unique.
  f_equal. apply set_eq. intros x.
  by rewrite !elem_of_list_to_set, elem_of_unique.
Qed.

(** ** [Counter] *)

Lemma count_snoc T x t :
  count (T ++ [x]) t = count T t + (if decide (x = t) then 1 else 0).
Proof.
  unfold count. rewrite filter_app, length_app. f_equal.
  case_decide.
  - by rewrite filter_cons_True.
  - by rewrite filter_cons_False.
Qed.

Lemma count_absent T t : t ∉ T → count T t = 0.
Proof.
  intros Ht. unfold count.
  induction T as [|u T IH]; [done|]. rewrite not_elem_of_cons in Ht.
  rewrite filter_cons_False by naive_solver. naive_solver.
Qed.

Lemma counter_add_fmap (g g' : string → nat) U x :
  NoDup U → (∀ t, t ≠ x → g' t = g t) → g' x = S (g x) →
  counter_add ((λ t, (t, g t)) <$> U) x
  = ((λ t, (t, g' t)) <$> U) ++ (if decide (x ∈ U) then [] else [(x, 1)]).
Proof.
  intros Hnd Hg Hx. induction U as [|u U IH]; [done|].
  apply NoDup_cons in Hnd as [Hu Hnd]. rewrite !fmap_cons. simpl.
  destruct (decide (u = x)) as [->|Hne].
  - rewrite decide_True by constructor. rewrite app_nil_r, Hx. f_equal.
    apply list_fmap_ext. intros i t Ht. rewrite Hg; [done|].
    intros ->. by apply list_elem_of_lookup_2 in Ht.
  - rewrite IH by done. rewrite Hg by done. f_equal. f_equal.
    destruct (decide (x ∈ U)), (decide (x ∈ u :: U)) as [Hx'|Hx'];
      try done.
    + destruct Hx'. by constructor.
    + apply elem_of_cons in Hx' as [->|?]; done.
Qed.

(** The counter lists the distinct elements in the order of first meeting,
    each with the number of its occurrences. *)
Lemma Counter_spec T : Counter T = (λ t, (t, count T t)) <$> unique T.
Proof.
  unfold Counter. induction T as [|x T IH] using rev_ind; [done|].
  rewrite foldl_snoc, IH.
  rewrite (counter_add_fmap _ (count (T ++ [x]))); [|apply NoDup_unique|..].
  - rewrite unique_snoc.
    destruct (decide (x ∈ unique T)) as [Hx|Hx], (decide (x ∈ T)) as [Hx'|Hx'];
      rewrite elem_of_unique in Hx; try done.
    + by rewrite app_nil_r.
    + rewrite fmap_app. simpl. rewrite count_snoc, count_absent by done.
      by rewrite decide_True.
  - intros t Ht. rewrite count_snoc. rewrite decide_False by done. lia.
  - rewrite count_snoc. rewrite decide_True by done. lia.
Qed.

(** ** The order of [unique] and the stable sort *)

Lemma StronglySorted_weaken {A} (R R' : relation A) l :
  (∀ a b, a ∈ l → b ∈ l → R a b → R' a b) →
  StronglySorted R l → StronglySorted R' l.
Proof.
  intros HR HS. induction HS as [|x l Hl IH Hx]; constructor.
  - apply IH. intros a b Ha Hb. apply HR; by constructor.
  - rewrite Forall_forall in *. intros y Hy.
    apply HR; [by constructor|by constructor|by apply Hx].
Qed.

Lemma StronglySorted_filter {A} (R : relation A) (P : A → Prop)
    `{∀ x, Decision (P x)} l :
  StronglySorted R l → StronglySorted R (filter P l).
Proof.
  induction 1 as [|x l Hl IH Hx]; [constructor|].
  rewrite filter_cons. case_decide; [|done].
  constructor; [done|]. rewrite Forall_forall in *.
  intros y [_ Hy]%list_elem_of_filter. by apply Hx.
Qed.

Lemma StronglySorted_lookup {A} (R : relation A) l i j x y :
  StronglySorted R l → i < j → l !! i = Some x → l !! j = Some y → R x y.
Proof.
  intros HS. revert i j. induction HS as [|z l Hl IH Hz]; intros i j Hij Hi Hj; [done|].
  destruct j as [|j]; [lia|]. destruct i as [|i]; simpl in *.
  - injection Hi as ->. rewrite Forall_forall in Hz.
    by eapply Hz, list_elem_of_lookup_2.
  - apply (IH i j); [lia|done..].
Qed.

Lemma first_index_head T x : first_index (x :: T) x = 0.
Proof. simpl. by rewrite decide_True. Qed.

Lemma first_index_tail T x t : t ≠ x → first_index (x :: T) t = S (first_index T t).
Proof. intros. simpl. by rewrite decide_False. Qed.

Lemma unique_first_index T :
  StronglySorted (λ s t, first_index T s < first_index T t) (unique T).
Proof.
  induction T as [|x T IH]; [constructor|]. cbn [unique]. constructor.
  - apply (StronglySorted_filter _ (λ y, y ≠ x)) in IH.
    revert IH. apply StronglySorted_weaken. intros a b Ha Hb Hab.
    apply list_elem_of_filter in Ha as [Ha _].
    apply list_elem_of_filter in Hb as [Hb _].
    rewrite !first_index_tail by done. lia.
  - apply Forall_forall. intros y [Hy _]%list_elem_of_filter.
    rewrite first_index_head, first_index_tail by done. lia.
Qed.

(** An item sorts before another one when its count is larger, or equal
    with its tag met first. *)
Definition item_before (T : list string) (x y : string * nat) : Prop :=
  y.2 < x.2 ∨ (x.2 = y.2 ∧ first_index T x.1 < first_index T y.1).

Lemma insert_by_count_Permutation x l : insert_by_count x l ≡ₚ x :: l.
Proof.
  induction l as [|y l IH]; [done|]. simpl. case_decide; [done|].
  rewrite IH. apply perm_swap.
Qed.

Lemma insert_by_count_sorted T x l :
  StronglySorted (item_before T) l →
  Forall (λ y, first_index T x.1 < first_index T y.1) l →
  StronglySorted (item_before T) (insert_by_count x l).
Proof.
  induction 1 as [|y l Hl IH Hy]; intros Hx; [repeat constructor|].
  apply Forall_cons in Hx as [Hxy Hx]. simpl. case_decide as Hle.
  - constructor; [by constructor|].
    assert (item_before T x y) as Hb by (unfold item_before; lia).
    constructor; [done|].
    rewrite Forall_forall in *. intros z Hz.
    specialize (Hy z Hz). specialize (Hx z Hz).
    unfold item_before in *. lia.
  - constructor; [by apply IH|].
    rewrite insert_by_count_Permutation. constructor; [|done].
    unfold item_before. lia.
Qed.

Lemma sorted_by_count_Permutation l : sorted_by_count l ≡ₚ l.
Proof.
  induction l as [|x l IH]; [done|]. simpl.
  by rewrite insert_by_count_Permutation, IH.
Qed.

Lemma sorted_by_count_sorted T l :
  StronglySorted (λ x y, first_index T x.1 < first_index T y.1) l →
  StronglySorted (item_before T) (sorted_by_count l).
Proof.
  induction 1 as [|x l Hl IH Hx]; [constructor|]. simpl.
  apply insert_by_count_sorted; [done|].
  by rewrite sorted_by_count_Permutation.
Qed.

(** ** The most common tags of one group *)

Section MostCommon.
Variable T : list string.
Variable n : Z.

Local Abbreviation ranked := (sorted_by_count (Counter T)).

Lemma sorted_counter_Permutation :
  ranked ≡ₚ (λ t, (t, count T t)) <$> unique T.
Proof. by rewrite sorted_by_count_Permutation, Counter_spec. Qed.

Lemma sorted_counter_sorted : StronglySorted (item_before T) ranked.
Proof.
  apply sorted_by_count_sorted. rewrite Counter_spec.
  eapply StronglySorted_fmap; [|apply unique_first_index]. done.
Qed.

Lemma sorted_counter_elem e : e ∈ ranked ↔ e.1 ∈ T ∧ e.2 = count T e.1.
Proof.
  rewrite sorted_counter_Permutation, list_elem_of_fmap.
  setoid_rewrite elem_of_unique. destruct e as [t k]. naive_solver.
Qed.

Lemma sorted_counter_keys : ranked.*1 ≡ₚ unique T.
Proof.
  rewrite sorted_counter_Permutation, <-list_fmap_compose.
  by rewrite (list_fmap_ext _ id (unique T)), list_fmap_id.
Qed.

Lemma item_before_ranks e e' :
  e ∈ ranked → e' ∈ ranked → item_before T e e' → ranks_before T e.1 e'.1.
Proof.
  intros [_ He]%sorted_counter_elem [_ He']%sorted_counter_elem.
  unfold item_before, ranks_before. by rewrite He, He'.
Qed.

Lemma most_common_most_frequent :
  most_frequent T n (most_common n (Counter T)).*1.
Proof.
  unfold most_common. set (k := Z.to_nat n).
  assert (take k ranked `sublist_of` ranked) as Hsub by apply sublist_take.
  split.
  - apply (sublist_NoDup _ (ranked.*1)); [|by apply fmap_sublist].
    rewrite sorted_counter_keys. apply NoDup_unique.
  - intros t (e & -> & He)%list_elem_of_fmap.
    eapply elem_of_sublist in He; [|done].
    by apply sorted_counter_elem in He as [? _].
  - rewrite length_fmap, length_take, size_unique.
    by rewrite <-sorted_counter_keys, length_fmap.
  - intros i j s t Hij Hi Hj.
    apply list_lookup_fmap_Some in Hi as (e & -> & Hi).
    apply list_lookup_fmap_Some in Hj as (e' & -> & Hj).
    apply lookup_take_Some in Hi as [Hi _].
    apply lookup_take_Some in Hj as [Hj _].
    apply item_before_ranks; [by eapply list_elem_of_lookup_2..|].
    by apply (StronglySorted_lookup _ ranked i j e e' sorted_counter_sorted).
  - intros s t (e & -> & He)%list_elem_of_fmap Ht Hnt.
    assert ((t, count T t) ∈ drop k ranked) as Hd.
    { assert ((t, count T t) ∈ take k ranked ++ drop k ranked) as Hin
        by (rewrite take_drop; by apply sorted_counter_elem).
      apply elem_of_app in Hin as [Hin|Hin]; [|done].
      destruct Hnt. apply list_elem_of_fmap. by exists (t, count T t). }
    apply (item_before_ranks e (t, count T t)).
    + by eapply elem_of_sublist.
    + by apply sorted_counter_elem.
    + pose proof sorted_counter_sorted as HS. rewrite <-(take_drop k ranked) in HS.
      by eapply StronglySorted_app_1_elem_of.
Qed.

End MostCommon.

(** ** The dictionary that is returned *)

Lemma collect_tags_foldl del acc cells :
  foldl (collect_tags del) acc cells
  = acc ++ (c ← cells;
            match c with
            | TagList tl => filter (λ tag, tag ∉ del) tl
            | NotAList => []
            end).
Proof.
  revert acc. induction cells as [|c cells IH]; intros acc; simpl.
  - by rewrite app_nil_r.
  - rewrite IH. destruct c as [[|t tl]|]; simpl.
    + done.
    + by rewrite app_assoc.
    + done.
Qed.

Lemma all_cluster_tags_group sample del c :
  foldl (collect_tags del) []
        (tags <$> filter (λ r, cluster r = c) sample)
  = group_tags sample del c.
Proof.
  rewrite collect_tags_foldl. unfold group_tags. simpl.
  by rewrite list_fmap_bind.
Qed.

Lemma top_tags_step_insert sample del n d c :
  c ≠ (-1)%Z →
  top_tags_step sample del n d c
  = <[c := (most_common n (Counter (group_tags sample del c))).*1]> d.
Proof.
  intros Hc. unfold top_tags_step. rewrite decide_False by done.
  cbv zeta. rewrite all_cluster_tags_group.
  destruct (group_tags sample del c); [|done].
  unfold most_common, Counter. simpl. by rewrite take_nil.
Qed.

Lemma top_tags_foldl sample del n ks d c :
  c ≠ (-1)%Z → c ∈ ks →
  foldl (top_tags_step sample del n) d ks !! c
  = Some (most_common n (Counter (group_tags sample del c))).*1.
Proof.
  intros Hc. revert d. induction ks as [|k ks IH] using rev_ind; intros d Hin.
  { by apply elem_of_nil in Hin. }
  rewrite foldl_snoc.
  destruct (decide (k = c)) as [->|Hne].
  - rewrite top_tags_step_insert by done. apply lookup_insert_eq.
  - apply elem_of_app in Hin as [Hin|Hin%list_elem_of_singleton]; [|done].
    unfold top_tags_step at 1. case_decide; [by apply IH|].
    cbv zeta. destruct (foldl (collect_tags del) [] _);
      rewrite lookup_insert_ne by done; by apply IH.
Qed.

Lemma top_tags_foldl_other sample del n ks d c :
  c = (-1)%Z ∨ c ∉ ks →
  foldl (top_tags_step sample del n) d ks !! c = d !! c.
Proof.
  intros Hc. revert d. induction ks as [|k ks IH]; intros d; [done|].
  simpl. rewrite IH by (rewrite not_elem_of_cons in Hc; tauto).
  unfold top_tags_step. case_decide; [done|].
  assert (k ≠ c) by (intros ->; rewrite not_elem_of_cons in Hc; tauto).
  cbv zeta. by destruct (foldl (collect_tags del) [] _);
    rewrite lookup_insert_ne by done.
Qed.

(** The noise group, of identifier -1, and identifiers that the table does
    not hold have no entry. *)
Lemma cluster_top_tags_absent sample tags_to_delete n c :
  c = (-1)%Z ∨ c ∉ cluster <$> sample →
  get_cluster_top_tags sample tags_to_delete n !! c = None.
Proof.
  intros Hc. unfold get_cluster_top_tags.
  rewrite top_tags_foldl_other; [done|]. by rewrite elem_of_unique.
Qed.

(** C7. For every group of the table whose cluster identifier is not -1,
    the dictionary holds the [n] most frequent tags of the group (fewer
    when the group has fewer), the excluded tags left out, by decreasing
    frequency, tags of equal frequency in the order they were first met. *)
Theorem cluster_top_tags_most_frequent sample tags_to_delete n c :
  c ≠ (-1)%Z → c ∈ cluster <$> sample →
  ∃ r, get_cluster_top_tags sample tags_to_delete n !! c = Some r
       ∧ most_frequent (group_tags sample tags_to_delete c) n r.
Proof.
  intros Hc Hin. eexists. split.
  - apply top_tags_foldl; [done|]. by apply elem_of_unique.
  - apply most_common_most_frequent.
Qed.

Lemma cluster_top_tags_most_frequent_witness :
  ∃ r,
    get_cluster_top_tags
      [Row 0 (TagList ["a"; "b"; "x"]); Row (-1) (TagList ["z"]);
       Row 0 (TagList ["b"; "c"]); Row 1 NotAList; Row 0 (TagList ["c"; "d"])]
      {["x"]} 2 !! 0%Z = Some r
    ∧ most_frequent
        (group_tags
           [Row 0 (TagList ["a"; "b"; "x"]); Row (-1) (TagList ["z"]);
            Row 0 (TagList ["b"; "c"]); Row 1 NotAList; Row 0 (TagList ["c"; "d"])]
           {["x"]} 0)
        2 r.
Proof.
  apply cluster_top_tags_most_frequent; [done|].
  apply (bool_decide_unpack _). vm_compute. exact I.
Defined.

(** ** Further properties of [get_cluster_top_tags] *)

(** X6. The dictionary has an entry exactly for the cluster identifiers
    of the table other than -1: the noise group never gets one, and every
    other group does, also when it has no tag at all. *)
Theorem cluster_top_tags_entries sample tags_to_delete n c :
  (is_Some (get_cluster_top_tags sample tags_to_delete n !! c))
  ↔ (c ≠ (-1)%Z ∧ c ∈ cluster <$> sample).
Proof.
  unfold get_cluster_top_tags. split.
  - intros Hsome.
    destruct (decide (c = (-1)%Z ∨ c ∉ unique (cluster <$> sample)))
      as [Hc|Hc].
    + rewrite top_tags_foldl_other in Hsome by done.
      by apply is_Some_None in Hsome.
    + rewrite <-elem_of_unique.
      destruct (decide (c = (-1)%Z)), (decide (c ∈ unique (cluster <$> sample)));
        tauto.
  - intros [Hc Hin]. rewrite top_tags_foldl; [done..|].
    by apply elem_of_unique.
Qed.

Lemma group_tags_elem sample del c t :
  t ∈ group_tags sample del c ↔
  ((t ∉ del)
   ∧ (∃ r tl, r ∈ sample ∧ cluster r = c ∧ tags r = TagList tl ∧ t ∈ tl)).
Proof.
  unfold group_tags. rewrite list_elem_of_bind. split.
  - intros (r & Ht & [Hc Hr]%list_elem_of_filter).
    destruct (tags r) as [tl|] eqn:Htl; [|by apply elem_of_nil in Ht].
    apply list_elem_of_filter in Ht as [Hd Ht]. eauto 10.
  - intros (Hd & r & tl & Hr & Hc & Htl & Ht). exists r. split.
    + rewrite Htl. by apply list_elem_of_filter.
    + by apply list_elem_of_filter.
Qed.

(** X7. Every tag in a returned list is a tag of some record of that
    cluster, and no excluded tag is ever returned. *)
Theorem cluster_top_tags_provenance sample tags_to_delete n c r t :
  get_cluster_top_tags sample tags_to_delete n !! c = Some r → t ∈ r →
  ((t ∉ tags_to_delete)
   ∧ (∃ rec tl,
        rec ∈ sample ∧ cluster rec = c ∧ tags rec = TagList tl ∧ t ∈ tl)).
Proof.
  intros Hr Ht. apply group_tags_elem.
  destruct (decide (c = (-1)%Z ∨ c ∉ cluster <$> sample)) as [Hc|Hc].
  { by rewrite cluster_top_tags_absent in Hr. }
  unfold get_cluster_top_tags in Hr. rewrite top_tags_foldl in Hr.
  - injection Hr as <-.
    by apply (mf_elem _ _ _ (most_common_most_frequent _ n)).
  - tauto.
  - apply elem_of_unique. destruct (decide (c ∈ cluster <$> sample)); tauto.
Qed.

Lemma cluster_top_tags_provenance_witness :
  (("b" ∉ ({["x"]} : gset string))
   ∧ (∃ rec tl,
        rec ∈ [Row 0 (TagList ["a"; "b"; "x"]); Row 0 (TagList ["b"; "c"])]
        ∧ cluster rec = 0%Z ∧ tags rec = TagList tl ∧ "b" ∈ tl)).
Proof.
  apply (cluster_top_tags_provenance
           [Row 0 (TagList ["a"; "b"; "x"]); Row 0 (TagList ["b"; "c"])]
           {["x"]} 2 0 ["b"; "a"] "b").
  - vm_compute. reflexivity.
  - apply (bool_decide_unpack _). vm_compute. exact I.
Defined.

(** X8. A cluster gets the empty list exactly when [n_top_tags] is not
    positive or no tag of the cluster is left after the exclusion. *)
Theorem cluster_top_tags_empty sample tags_to_delete n c r :
  get_cluster_top_tags sample tags_to_delete n !! c = Some r →
  (r = [] ↔ (n ≤ 0)%Z ∨ group_tags sample tags_to_delete c = []).
Proof.
  intros Hr.
  destruct (decide (c = (-1)%Z ∨ c ∉ cluster <$> sample)) as [Hc|Hc].
  { by rewrite cluster_top_tags_absent in Hr. }
  unfold get_cluster_top_tags in Hr. rewrite top_tags_foldl in Hr.
  2: tauto.
  2:{ apply elem_of_unique. destruct (decide (c ∈ cluster <$> sample)); tauto. }
  injection Hr as <-.
  set (T := group_tags sample tags_to_delete c).
  pose proof (mf_length _ _ _ (most_common_most_frequent T n)) as Hlen.
  rewrite size_unique in Hlen.
  assert (length (unique T) = 0 ↔ T = []) as HT.
  { destruct T; simpl; [done|]. split; [lia|done]. }
  rewrite <-HT.
  destruct ((most_common n (Counter T)).*1) as [|x r']; simpl in Hlen.
  - split; [|done]. intros _. lia.
  - split; [done|]. lia.
Qed.

Lemma cluster_top_tags_empty_witness :
  ([] = @nil string ↔
   (2 ≤ 0)%Z ∨ group_tags [Row 0 (TagList ["x"]); Row 0 NotAList] {["x"]} 0 = []).
Proof.
  apply (cluster_top_tags_empty [Row 0 (TagList ["x"]); Row 0 NotAList]
           {["x"]} 2 0 []).
  vm_compute. reflexivity.
Defined.

End Tags.

(** * [utils/map.py]: what [create_cluster_map] draws *)

Module ClusterMap.

Import Hull.

(** ** Data model

    [create_cluster_map] builds a [folium] map: it creates objects of the
    mapping library and adds each one to the map or to one of two feature
    groups.  The embedding keeps these calls, in the order the source makes
    them, with the arguments that the source computes; arguments that are
    constants of the source (weights, opacities, radii, the centre and zoom
    of the map) are left out.  Writing the map to a file, and with it
    [year] and [save_dir], is not part of the model.  The table holds its
    positions as integers; the source converts them to floats, with
    [.astype(float)], for the hull only. *)

(** A record of the table [sample], with the columns the function reads. *)
Record row : Type := Row {
  cluster : Z;
  lat : Z;
  long : Z;
  similar_year : bool;
  url : string
}.

(** The errors that the statements of the function can raise. *)
Inductive py_error : Type :=
  | TypeError
  | ValueError.

Inductive result (A : Type) : Type :=
  | Done (v : A)
  | Raises (e : py_error).

Arguments Done {A} v.
Arguments Raises {A} e.

Global Instance result_ret : MRet result := λ A v, Done v.

Global Instance result_bind : MBind result := λ A B f m,
  match m with
  | Done v => f v
  | Raises e => Raises e
  end.

(** A colour: the string ["gray"], or what the colormap
    [cm.linear.Paired_12.scale(vmin, vmax)] answers for the value [x]. *)
Inductive colour : Type :=
  | Gray
  | Paired (vmin vmax x : Z).

(** [folium.Polygon(locations=..., color=..., fill_color=color,
    tooltip=...)]; the locations come from the hull and are floats. *)
Record polygon : Type := Polygon {
  pg_locations : list Binary64.point;
  pg_color : colour;
  pg_tooltip : string
}.

(** [folium.CircleMarker] and [folium.RegularPolygonMarker] (of four
    sides), each with [location], [color] and [popup]. *)
Inductive marker : Type :=
  | CircleMarker (location : point) (color : colour) (popup : string)
  | RegularPolygonMarker (location : point) (color : colour) (popup : string).

(** What is added to the map [m], in this order. *)
Inductive layer : Type :=
  | ColorMapLayer (vmin vmax : Z)
  | PolygonLayer (p : polygon)
  | FeatureGroup (name : string) (children : list marker)
  | LayerControl.

(** ** Python's builtins *)

(** [min(l)] and [max(l)]: a [ValueError] on the empty list. *)
Definition py_min (l : list Z) : result Z :=
  match l with
  | [] => Raises ValueError
  | x :: l' => Done (foldl Z.min x l')
  end.

Definition py_max (l : list Z) : result Z :=
  match l with
  | [] => Raises ValueError
  | x :: l' => Done (foldl Z.max x l')
  end.

(** [colormap(x)]: calling [None] is a [TypeError]. *)
Definition call_colormap (colormap : option (Z * Z)) (x : Z) : result colour :=
  match colormap with
  | None => Raises TypeError
  | Some (vmin, vmax) => Done (Paired vmin vmax x)
  end.

(** [float(z)], as [.astype(float)] converts an integer: the nearest
    binary64 number, ties to even. *)
Definition py_float (z : Z) : float :=
  SF2Prim (binary_normalize prec emax z 0 false).

(** [sep.join(l)] *)
Definition py_join (sep : string) (l : list string) : string :=
  String.concat sep l.

(** ** The function *)

(** [sorted([c for c in sample["cluster"].unique() if c != -1])] *)
Definition cluster_ids_of (sample : list row) : list Z :=
  merge_sort Z.le
    (filter (λ c, c ≠ -1) (Tags.unique (cluster <$> sample))).

(** The body of the loop that draws the polygons: [None] stands for
    [continue]. *)
Definition draw_polygon (sample : list row)
    (cluster_top_tags : gmap Z (list string)) (colormap : option (Z * Z))
    (cluster_id : Z) : option polygon :=
  let cluster_df := filter (λ r, cluster r = cluster_id) sample in
  let pts_xy :=
    (λ r, (py_float (long r), py_float (lat r))) <$> cluster_df in
  let hull_xy := Binary64.convex_hull_xy pts_xy in
  match hull_xy with
  | [] => None
  | _ =>
      let color :=
        match colormap with
        | Some (vmin, vmax) => Paired vmin vmax cluster_id
        | None => Gray
        end in
      let hull_latlon := (λ '(x, y), (y, x)) <$> hull_xy in
      Some (Polygon hull_latlon color
              ("Cluster&nbsp;" +:+ pretty cluster_id +:+ "&nbsp;(n="
               +:+ pretty (length cluster_df) +:+ ")<br/>Tags: "
               +:+ py_join ", " (default [] (cluster_top_tags !! cluster_id))))
  end.

(** The body of the loop over the records: the markers of [fg_similar] and
    of [fg_nonsimilar] so far, and the record [r]. *)
Definition draw_point (show_noise : bool) (colormap : option (Z * Z))
    (fgs : list marker * list marker) (r : row)
  : result (list marker * list marker) :=
  let cluster_id := cluster r in
  if bool_decide (cluster_id = -1) && negb show_noise then mret fgs
  else
    color ← (if bool_decide (cluster_id = -1) then mret Gray
             else call_colormap colormap cluster_id);
    let popup := "Cluster:&nbsp;" +:+ pretty cluster_id +:+ "<br/><a href='"
                 +:+ url r +:+ "' target='_blank'>link</a>" in
    if similar_year r then
      mret (fgs.1 ++ [CircleMarker (lat r, long r) color popup], fgs.2)
    else
      mret (fgs.1, fgs.2 ++ [RegularPolygonMarker (lat r, long r) color popup]).

(** [for _, row in sample.iterrows(): ...] *)
Fixpoint draw_points (show_noise : bool) (colormap : option (Z * Z))
    (fgs : list marker * list marker) (rows : list row)
  : result (list marker * list marker) :=
  match rows with
  | [] => mret fgs
  | r :: rows' =>
      fgs' ← draw_point show_noise colormap fgs r;
      draw_points show_noise colormap fgs' rows'
  end.

(** [colormap = None] when there is no cluster, otherwise
    [cm.linear.Paired_12.scale(min(cluster_ids), max(cluster_ids))]. *)
Definition make_colormap (cluster_ids : list Z) : result (option (Z * Z)) :=
  if bool_decide (length cluster_ids = 0%nat) then mret None
  else
    vmin ← py_min cluster_ids;
    vmax ← py_max cluster_ids;
    mret (Some (vmin, vmax)).

Definition create_cluster_map (sample : list row)
    (cluster_top_tags : gmap Z (list string))
    (show_points show_noise : bool) : result (list layer) :=
  let cluster_ids := cluster_ids_of sample in
  colormap ← make_colormap cluster_ids;
  let m :=
    match colormap with
    | Some (vmin, vmax) => [ColorMapLayer vmin vmax]
    | None => []
    end in
  let m :=
    m ++ (PolygonLayer <$>
            omap (draw_polygon sample cluster_top_tags colormap) cluster_ids) in
  m ← (if show_points then
         fgs ← draw_points show_noise colormap ([], []) sample;
         mret (m ++ [FeatureGroup "Similar year (circles)" fgs.1;
                     FeatureGroup "Not similar year (squares)" fgs.2])
       else mret m);
  mret (m ++ [LayerControl]).

Example cluster_map_example :
  create_cluster_map
    [Row 2 0 0 true "u1"; Row 2 0 4 false "u2"; Row 2 4 0 true "u3";
     Row (-1) 9 9 true "u4"; Row 5 1 1 false "u5"]
    {[ 2 := ["a"; "b"] ]} true false
  = Done
      [ColorMapLayer 2 5;
       PolygonLayer
         (Polygon [(0,0); (0,4); (4,0)]%float (Paired 2 5 2)
            "Cluster&nbsp;2&nbsp;(n=3)<br/>Tags: a, b");
       FeatureGroup "Similar year (circles)"
         [CircleMarker (0,0) (Paired 2 5 2)
            "Cluster:&nbsp;2<br/><a href='u1' target='_blank'>link</a>";
          CircleMarker (4,0) (Paired 2 5 2)
            "Cluster:&nbsp;2<br/><a href='u3' target='_blank'>link</a>"];
       FeatureGroup "Not similar year (squares)"
         [RegularPolygonMarker (0,4) (Paired 2 5 2)
            "Cluster:&nbsp;2<br/><a href='u2' target='_blank'>link</a>";
          RegularPolygonMarker (1,1) (Paired 2 5 5)
            "Cluster:&nbsp;5<br/><a href='u5' target='_blank'>link</a>"];
       LayerControl].
Proof. vm_compute. reflexivity. Qed.

(** ** Reading a map *)

(** The polygons of a map, and its feature groups, in the order they were
    added. *)
Definition polygons_of (m : list layer) : list polygon :=
  omap (λ l, match l with PolygonLayer p => Some p | _ => None end) m.

Definition groups_of (m : list layer) : list (string * list marker) :=
  omap (λ l, match l with FeatureGroup n ch => Some (n, ch) | _ => None end) m.

Definition marker_location (mk : marker) : point :=
  match mk with
  | CircleMarker loc _ _ | RegularPolygonMarker loc _ _ => loc
  end.

Definition marker_color (mk : marker) : colour :=
  match mk with
  | CircleMarker _ col _ | RegularPolygonMarker _ col _ => col
  end.

Definition is_circle (mk : marker) : Prop :=
  match mk with CircleMarker _ _ _ => True | _ => False end.

Definition is_square (mk : marker) : Prop :=
  match mk with RegularPolygonMarker _ _ _ => True | _ => False end.

(** Every colour that the map uses. *)
Definition colours_of (m : list layer) : list colour :=
  l ← m;
  match l with
  | PolygonLayer p => [pg_color p]
  | FeatureGroup _ ch => marker_color <$> ch
  | _ => []
  end.

(** The positions of the records of cluster [c], as the hull gets them:
    [(long, lat)], in floats. *)
Definition positions (sample : list row) (c : Z) : list Binary64.point :=
  (λ r, (py_float (long r), py_float (lat r)))
  <$> filter (λ r, cluster r = c) sample.

(** The record [r] gets a marker. *)
Definition drawn (show_noise : bool) (r : row) : Prop :=
  cluster r ≠ -1 ∨ show_noise = true.

Global Instance drawn_dec show_noise r : Decision (drawn show_noise r).
Proof. unfold drawn. apply _. Defined.

(** ** The cluster identifiers and the colormap *)

Lemma elem_of_cluster_ids sample c :
  c ∈ cluster_ids_of sample ↔ c ≠ -1 ∧ c ∈ cluster <$> sample.
Proof.
  unfold cluster_ids_of.
  by rewrite merge_sort_Permutation, list_elem_of_filter, Tags.elem_of_unique.
Qed.

Lemma cluster_ids_sorted sample : StronglySorted Z.lt (cluster_ids_of sample).
Proof.
  unfold cluster_ids_of.
  set (l := filter _ _).
  assert (NoDup (merge_sort Z.le l)) as Hnd.
  { rewrite merge_sort_Permutation. apply NoDup_filter, Tags.NoDup_unique. }
  assert (StronglySorted Z.le (merge_sort Z.le l)) as HS
    by (apply StronglySorted_merge_sort; apply _).
  induction HS as [|x k Hk IH Hx]; [constructor|].
  apply NoDup_cons in Hnd as [Hxk Hnd]. constructor; [by apply IH|].
  rewrite Forall_forall in *. intros y Hy.
  assert (x ≠ y) by (by intros ->). specialize (Hx y Hy). lia.
Qed.

Lemma foldl_min_spec l x :
  foldl Z.min x l ∈ x :: l ∧ ∀ y, y ∈ x :: l → foldl Z.min x l ≤ y.
Proof.
  revert x. induction l as [|z l IH]; intros x; simpl.
  - split; [constructor|]. intros y ->%list_elem_of_singleton. lia.
  - destruct (IH (x `min` z)) as [Hin Hle]. split.
    + apply elem_of_cons in Hin as [Hin|Hin]; [|by do 2 constructor].
      rewrite Hin. destruct (Z.min_spec x z) as [[_ ->]|[_ ->]];
        [constructor|by do 2 constructor].
    + intros y Hy. assert (foldl Z.min (x `min` z) l ≤ x `min` z)
        by (apply Hle; constructor).
      apply elem_of_cons in Hy as [->|[->|Hy]%elem_of_cons]; [lia..|].
      apply Hle. by constructor.
Qed.

Lemma foldl_max_spec l x :
  foldl Z.max x l ∈ x :: l ∧ ∀ y, y ∈ x :: l → y ≤ foldl Z.max x l.
Proof.
  revert x. induction l as [|z l IH]; intros x; simpl.
  - split; [constructor|]. intros y ->%list_elem_of_singleton. lia.
  - destruct (IH (x `max` z)) as [Hin Hle]. split.
    + apply elem_of_cons in Hin as [Hin|Hin]; [|by do 2 constructor].
      rewrite Hin. destruct (Z.max_spec x z) as [[_ ->]|[_ ->]];
        [by do 2 constructor|constructor].
    + intros y Hy. assert (x `max` z ≤ foldl Z.max (x `max` z) l)
        by (apply Hle; constructor).
      apply elem_of_cons in Hy as [->|[->|Hy]%elem_of_cons]; [lia..|].
      apply Hle. by constructor.
Qed.

(** What the colormap is, for the cluster identifiers [ids]: none without
    identifiers, otherwise the scale from the least to the greatest. *)
Definition colormap_for (ids : list Z) (colormap : option (Z * Z)) : Prop :=
  match colormap with
  | None => ids = []
  | Some (vmin, vmax) =>
      vmin ∈ ids ∧ vmax ∈ ids ∧ ∀ c, c ∈ ids → vmin ≤ c ≤ vmax
  end.

Lemma make_colormap_done ids :
  ∃ colormap, make_colormap ids = Done colormap ∧ colormap_for ids colormap.
Proof.
  unfold make_colormap. destruct ids as [|x ids].
  - by exists None.
  - rewrite bool_decide_false by done.
    destruct (foldl_min_spec ids x) as [? ?], (foldl_max_spec ids x) as [? ?].
    exists (Some (foldl Z.min x ids, foldl Z.max x ids)).
    split; [done|]. split; [done|]. split; [done|]. auto.
Qed.

(** ** The loop over the records *)

Definition marker_colour_of (colormap : option (Z * Z)) (r : row) : colour :=
  if bool_decide (cluster r = -1) then Gray
  else match colormap with
       | Some (vmin, vmax) => Paired vmin vmax (cluster r)
       | None => Gray
       end.

Definition popup_of (r : row) : string :=
  "Cluster:&nbsp;" +:+ pretty (cluster r) +:+ "<br/><a href='"
  +:+ url r +:+ "' target='_blank'>link</a>".

Definition circle_of (show_noise : bool) (colormap : option (Z * Z))
    (r : row) : option marker :=
  if decide (drawn show_noise r ∧ similar_year r = true)
  then Some (CircleMarker (lat r, long r) (marker_colour_of colormap r)
               (popup_of r))
  else None.

Definition square_of (show_noise : bool) (colormap : option (Z * Z))
    (r : row) : option marker :=
  if decide (drawn show_noise r ∧ similar_year r = false)
  then Some (RegularPolygonMarker (lat r, long r)
               (marker_colour_of colormap r) (popup_of r))
  else None.

Lemma draw_point_done show_noise colormap fgs r :
  (cluster r ≠ -1 → is_Some colormap) →
  draw_point show_noise colormap fgs r
  = Done (fgs.1 ++ option_list (circle_of show_noise colormap r),
          fgs.2 ++ option_list (square_of show_noise colormap r)).
Proof.
  intros Hcm. unfold draw_point, circle_of, square_of, marker_colour_of, drawn.
  destruct fgs as [sim non]. simpl.
  destruct (decide (cluster r = -1)) as [Hc|Hc].
  - rewrite !bool_decide_true by done. destruct show_noise; simpl.
    + destruct (similar_year r); simpl.
      * rewrite decide_True by auto. rewrite decide_False by naive_solver.
        by rewrite app_nil_r.
      * rewrite decide_False by naive_solver. rewrite decide_True by auto.
        by rewrite app_nil_r.
    + rewrite !decide_False by naive_solver. by rewrite !app_nil_r.
  - rewrite !bool_decide_false by done. simpl.
    destruct (Hcm Hc) as [[vmin vmax] ->]. simpl.
    destruct (similar_year r); simpl.
    + rewrite decide_True by auto. rewrite decide_False by naive_solver.
      by rewrite app_nil_r.
    + rewrite decide_False by naive_solver. rewrite decide_True by auto.
      by rewrite app_nil_r.
Qed.

Lemma draw_points_done show_noise colormap fgs rows :
  (∀ r, r ∈ rows → cluster r ≠ -1 → is_Some colormap) →
  draw_points show_noise colormap fgs rows
  = Done (fgs.1 ++ omap (circle_of show_noise colormap) rows,
          fgs.2 ++ omap (square_of show_noise colormap) rows).
Proof.
  revert fgs. induction rows as [|r rows IH]; intros fgs Hcm; simpl.
  - by rewrite !app_nil_r; destruct fgs.
  - rewrite draw_point_done by (apply (Hcm r); constructor). simpl.
    rewrite IH by (intros r' ? ?; apply (Hcm r'); [by constructor|done]).
    simpl.
    f_equal. f_equal.
    + rewrite <-app_assoc. f_equal.
      by destruct (circle_of show_noise colormap r).
    + rewrite <-app_assoc. f_equal.
      by destruct (square_of show_noise colormap r).
Qed.

(** ** The layers of the map *)

Definition colormap_layers (colormap : option (Z * Z)) : list layer :=
  match colormap with
  | Some (vmin, vmax) => [ColorMapLayer vmin vmax]
  | None => []
  end.

Definition group_layers (show_points show_noise : bool)
    (colormap : option (Z * Z)) (sample : list row) : list layer :=
  if show_points then
    [FeatureGroup "Similar year (circles)"
       (omap (circle_of show_noise colormap) sample);
     FeatureGroup "Not similar year (squares)"
       (omap (square_of show_noise colormap) sample)]
  else [].

(** The function in one piece: it returns, and these are its layers. *)
Lemma create_cluster_map_layers sample cluster_top_tags show_points show_noise :
  ∃ colormap,
    colormap_for (cluster_ids_of sample) colormap
    ∧ create_cluster_map sample cluster_top_tags show_points show_noise
      = Done (colormap_layers colormap
              ++ (PolygonLayer <$>
                    omap (draw_polygon sample cluster_top_tags colormap)
                      (cluster_ids_of sample))
              ++ group_layers show_points show_noise colormap sample
              ++ [LayerControl]).
Proof.
  destruct (make_colormap_done (cluster_ids_of sample)) as (cm & Hcm & Hfor).
  exists cm. split; [done|].
  unfold create_cluster_map. cbv zeta. rewrite Hcm. simpl.
  unfold group_layers. destruct show_points; simpl.
  - rewrite draw_points_done; simpl.
    + unfold colormap_layers. destruct cm as [[vmin vmax]|]; simpl;
        by rewrite <-?app_assoc.
    + intros r Hr Hc. destruct cm; [done|]. simpl in Hfor.
      assert (cluster r ∈ cluster_ids_of sample) as Hin.
      { apply elem_of_cluster_ids. split; [done|]. by apply list_elem_of_fmap_2. }
      rewrite Hfor in Hin. by apply elem_of_nil in Hin.
  - unfold colormap_layers. destruct cm as [[vmin vmax]|]; simpl;
      by rewrite ?app_nil_r, <-?app_assoc.
Qed.

(** ** What a map holds *)

Lemma omap_cons_Some {A B} (f : A → option B) x y l :
  f x = Some y → omap f (x :: l) = y :: omap f l.
Proof. intros H. simpl. by rewrite H. Qed.

Lemma omap_cons_None {A B} (f : A → option B) x l :
  f x = None → omap f (x :: l) = omap f l.
Proof. intros H. simpl. by rewrite H. Qed.

Lemma polygons_of_layers colormap ps show_points show_noise sample :
  polygons_of (colormap_layers colormap ++ (PolygonLayer <$> ps)
               ++ group_layers show_points show_noise colormap sample
               ++ [LayerControl]) = ps.
Proof.
  assert (polygons_of (PolygonLayer <$> ps) = ps) as Hps.
  { induction ps as [|p ps IH]; [done|]. unfold polygons_of in *. simpl.
    f_equal; apply IH. }
  unfold polygons_of in *. rewrite !omap_app, Hps.
  destruct colormap as [[vmin vmax]|], show_points; simpl;
    by rewrite ?app_nil_r.
Qed.

Lemma groups_of_layers colormap ps show_points show_noise sample :
  groups_of (colormap_layers colormap ++ (PolygonLayer <$> ps)
             ++ group_layers show_points show_noise colormap sample
             ++ [LayerControl])
  = groups_of (group_layers show_points show_noise colormap sample).
Proof.
  assert (groups_of (PolygonLayer <$> ps) = []) as Hps.
  { induction ps as [|p ps IH]; [done|]. unfold groups_of in *. simpl.
    f_equal; apply IH. }
  unfold groups_of in *. rewrite !omap_app, Hps.
  destruct colormap as [[vmin vmax]|]; simpl; by rewrite ?app_nil_r.
Qed.

Lemma colours_of_layers colormap ps show_points show_noise sample :
  colours_of (colormap_layers colormap ++ (PolygonLayer <$> ps)
              ++ group_layers show_points show_noise colormap sample
              ++ [LayerControl])
  = (pg_color <$> ps)
    ++ colours_of (group_layers show_points show_noise colormap sample).
Proof.
  assert (colours_of (PolygonLayer <$> ps) = pg_color <$> ps) as Hps.
  { induction ps as [|p ps IH]; [done|]. unfold colours_of in *. simpl.
    f_equal; apply IH. }
  unfold colours_of in *. rewrite !bind_app, Hps.
  destruct colormap as [[vmin vmax]|]; simpl; by rewrite ?app_nil_r.
Qed.

Lemma colormap_layer_iff colormap ps show_points show_noise sample vmin vmax :
  ColorMapLayer vmin vmax
    ∈ colormap_layers colormap ++ (PolygonLayer <$> ps)
      ++ group_layers show_points show_noise colormap sample
      ++ [LayerControl]
  ↔ colormap = Some (vmin, vmax).
Proof.
  rewrite !elem_of_app, list_elem_of_fmap. split.
  - intros [H|[(p & [=] & _)|[H|H]]].
    + destruct colormap as [[a b]|]; simpl in H.
      * by apply list_elem_of_singleton in H as [= -> ->].
      * by apply elem_of_nil in H.
    + unfold group_layers in H. destruct show_points.
      * by apply elem_of_cons in H as [[=]|[[=]|?%elem_of_nil]%elem_of_cons].
      * by apply elem_of_nil in H.
    + by apply list_elem_of_singleton in H.
  - intros ->. left. simpl. constructor.
Qed.

Lemma elem_of_positions sample c p :
  p ∈ positions sample c
  ↔ ∃ r, r ∈ sample ∧ cluster r = c
         ∧ p = (py_float (long r), py_float (lat r)).
Proof.
  unfold positions. rewrite list_elem_of_fmap. split.
  - intros (r & -> & [? ?]%list_elem_of_filter). by exists r.
  - intros (r & ? & ? & ->). exists r. by rewrite list_elem_of_filter.
Qed.

Lemma positions_cluster sample c :
  (3 ≤ length (Binary64.py_set (positions sample c)))%nat →
  c ∈ cluster <$> sample.
Proof.
  intros Hsz. destruct (positions sample c) as [|p l] eqn:E.
  { simpl in Hsz. lia. }
  assert (p ∈ positions sample c) as Hp by (rewrite E; constructor).
  apply elem_of_positions in Hp as (r & Hr & <- & _).
  by apply list_elem_of_fmap_2.
Qed.

(** The polygon of a cluster. *)
Lemma draw_polygon_Some sample cluster_top_tags colormap c p :
  draw_polygon sample cluster_top_tags colormap c = Some p →
  Binary64.convex_hull_xy (positions sample c) ≠ []
  ∧ pg_locations p
    = (λ '(x, y), (y, x)) <$> Binary64.convex_hull_xy (positions sample c)
  ∧ pg_color p = match colormap with
                 | Some (vmin, vmax) => Paired vmin vmax c
                 | None => Gray
                 end.
Proof.
  unfold draw_polygon, positions. cbv zeta.
  destruct (Binary64.convex_hull_xy _) as [|v h]; [done|].
  by intros [= <-].
Qed.

Lemma draw_polygon_None sample cluster_top_tags colormap c :
  draw_polygon sample cluster_top_tags colormap c = None
  ↔ Binary64.convex_hull_xy (positions sample c) = [].
Proof.
  unfold draw_polygon, positions. cbv zeta.
  by destruct (Binary64.convex_hull_xy _) as [|v h].
Qed.

Lemma polygon_colours sample cluster_top_tags vmin vmax (ids : list Z) :
  pg_color <$> omap (draw_polygon sample cluster_top_tags (Some (vmin, vmax))) ids
  = Paired vmin vmax
    <$> filter (λ c, Binary64.convex_hull_xy (positions sample c) ≠ []) ids.
Proof.
  induction ids as [|c ids IH]; [done|].
  destruct (draw_polygon sample cluster_top_tags (Some (vmin, vmax)) c)
    as [p|] eqn:E.
  - rewrite (omap_cons_Some _ _ _ _ E).
    apply draw_polygon_Some in E as (Hne & _ & Hcol).
    rewrite filter_cons_True by done. by rewrite !fmap_cons, Hcol, IH.
  - rewrite (omap_cons_None _ _ _ E).
    apply draw_polygon_None in E.
    by rewrite filter_cons_False by (by intros ?).
Qed.

(** The polygon [p] of a map is the one drawn for the cluster that its
    colour names. *)
Lemma polygon_of_cluster sample cluster_top_tags show_points show_noise m p
    vmin vmax c :
  create_cluster_map sample cluster_top_tags show_points show_noise = Done m →
  p ∈ polygons_of m → pg_color p = Paired vmin vmax c →
  c ≠ -1
  ∧ Binary64.convex_hull_xy (positions sample c) ≠ []
  ∧ pg_locations p
    = (λ '(x, y), (y, x)) <$> Binary64.convex_hull_xy (positions sample c).
Proof.
  intros Hm Hp Hcol.
  destruct (create_cluster_map_layers sample cluster_top_tags show_points
              show_noise) as (cm & Hfor & Heq).
  rewrite Heq in Hm. injection Hm as <-.
  rewrite polygons_of_layers in Hp.
  apply list_elem_of_omap in Hp as (c' & Hc' & Hdraw).
  apply draw_polygon_Some in Hdraw as (Hne & Hloc & Hcol').
  rewrite Hcol in Hcol'. destruct cm as [[a b]|]; [|done].
  injection Hcol' as -> -> ->.
  by apply elem_of_cluster_ids in Hc' as [? _].
Qed.

Lemma swap_cross (o a b : point) :
  cross (o.2, o.1) (a.2, a.1) (b.2, b.1) = - cross o a b.
Proof. unfold cross. simpl. ring. Qed.

(** The markers of the two groups. *)
Lemma circles_spec show_noise colormap rows :
  Forall is_circle (omap (circle_of show_noise colormap) rows)
  ∧ marker_location <$> omap (circle_of show_noise colormap) rows
    = (λ r, (lat r, long r))
      <$> filter (λ r, drawn show_noise r ∧ similar_year r = true) rows
  ∧ marker_color <$> omap (circle_of show_noise colormap) rows
    = marker_colour_of colormap
      <$> filter (λ r, drawn show_noise r ∧ similar_year r = true) rows.
Proof.
  induction rows as [|r rows (IH1 & IH2 & IH3)]; [by repeat constructor|].
  destruct (decide (drawn show_noise r ∧ similar_year r = true)) as [H|H].
  - rewrite (omap_cons_Some _ r
               (CircleMarker (lat r, long r) (marker_colour_of colormap r)
                  (popup_of r)))
      by (unfold circle_of; by rewrite decide_True).
    rewrite filter_cons_True by done. rewrite !fmap_cons, IH2, IH3.
    split; [by constructor|done].
  - rewrite omap_cons_None by (unfold circle_of; by rewrite decide_False).
    by rewrite filter_cons_False by done.
Qed.

Lemma squares_spec show_noise colormap rows :
  Forall is_square (omap (square_of show_noise colormap) rows)
  ∧ marker_location <$> omap (square_of show_noise colormap) rows
    = (λ r, (lat r, long r))
      <$> filter (λ r, drawn show_noise r ∧ similar_year r = false) rows
  ∧ marker_color <$> omap (square_of show_noise colormap) rows
    = marker_colour_of colormap
      <$> filter (λ r, drawn show_noise r ∧ similar_year r = false) rows.
Proof.
  induction rows as [|r rows (IH1 & IH2 & IH3)]; [by repeat constructor|].
  destruct (decide (drawn show_noise r ∧ similar_year r = false)) as [H|H].
  - rewrite (omap_cons_Some _ r
               (RegularPolygonMarker (lat r, long r) (marker_colour_of colormap r)
                  (popup_of r)))
      by (unfold square_of; by rewrite decide_True).
    rewrite filter_cons_True by done. rewrite !fmap_cons, IH2, IH3.
    split; [by constructor|done].
  - rewrite omap_cons_None by (unfold square_of; by rewrite decide_False).
    by rewrite filter_cons_False by done.
Qed.

(** The colour of a marker comes from a record that is drawn. *)
Lemma marker_colours show_points show_noise colormap sample col :
  col ∈ colours_of (group_layers show_points show_noise colormap sample)
  ↔ show_points = true
    ∧ ∃ r, r ∈ sample ∧ drawn show_noise r
           ∧ col = marker_colour_of colormap r.
Proof.
  unfold group_layers. destruct show_points; simpl.
  2: { split; [by intros ?%elem_of_nil|by intros [[=] _]]. }
  rewrite app_nil_r, elem_of_app.
  destruct (circles_spec show_noise colormap sample) as (_ & _ & ->).
  destruct (squares_spec show_noise colormap sample) as (_ & _ & ->).
  rewrite !list_elem_of_fmap. split.
  - intros [(r & -> & [[? ?] ?]%list_elem_of_filter)
           |(r & -> & [[? ?] ?]%list_elem_of_filter)];
      (split; [done|by exists r]).
  - intros (_ & r & Hr & Hd & ->).
    destruct (similar_year r) eqn:E; [left|right]; exists r;
      by rewrite list_elem_of_filter.
Qed.

(** ** Properties of [create_cluster_map] *)


(** X10.  The map gets a colormap exactly when the table has a cluster other
    than the noise cluster -1, and then its scale runs from the least to the
    greatest of these cluster identifiers. *)
Theorem colormap_scale sample cluster_top_tags show_points show_noise m
    vmin vmax :
  create_cluster_map sample cluster_top_tags show_points show_noise = Done m →
  (ColorMapLayer vmin vmax ∈ m
   ↔ (vmin ≠ -1 ∧ vmin ∈ cluster <$> sample)
     ∧ (vmax ≠ -1 ∧ vmax ∈ cluster <$> sample)
     ∧ ∀ c, c ≠ -1 → c ∈ cluster <$> sample → vmin ≤ c ≤ vmax).
Proof.
  intros Hm.
  destruct (create_cluster_map_layers sample cluster_top_tags show_points
              show_noise) as (cm & Hfor & Heq).
  rewrite Heq in Hm. injection Hm as <-.
  rewrite colormap_layer_iff, <-!elem_of_cluster_ids.
  split.
  - intros ->. destruct Hfor as (? & ? & Hall). split; [done|]. split; [done|].
    intros c ? ?. apply Hall. by apply elem_of_cluster_ids.
  - intros (Hlo & Hhi & Hall).
    assert (∀ c, c ∈ cluster_ids_of sample → vmin ≤ c ≤ vmax) as Hall'.
    { intros c [? ?]%elem_of_cluster_ids. by apply Hall. }
    destruct cm as [[a b]|]; simpl in Hfor.
    + destruct Hfor as (Ha & Hb & Hab).
      pose proof (Hall' _ Ha). pose proof (Hall' _ Hb).
      pose proof (Hab _ Hlo). pose proof (Hab _ Hhi).
      f_equal. f_equal; lia.
    + rewrite Hfor in Hlo. by apply elem_of_nil in Hlo.
Qed.

Lemma colormap_scale_witness :
  ColorMapLayer 2 5
  ∈ [ColorMapLayer 2 5; FeatureGroup "Similar year (circles)" [];
     FeatureGroup "Not similar year (squares)"
       [RegularPolygonMarker (1, 1) (Paired 2 5 2)
          "Cluster:&nbsp;2<br/><a href='u' target='_blank'>link</a>";
        RegularPolygonMarker (3, 3) (Paired 2 5 5)
          "Cluster:&nbsp;5<br/><a href='v' target='_blank'>link</a>"];
     LayerControl]
  ↔ (2 ≠ -1 ∧ 2 ∈ cluster <$> [Row 2 1 1 false "u"; Row 5 3 3 false "v"])
    ∧ (5 ≠ -1 ∧ 5 ∈ cluster <$> [Row 2 1 1 false "u"; Row 5 3 3 false "v"])
    ∧ ∀ c, c ≠ -1 → c ∈ cluster <$> [Row 2 1 1 false "u"; Row 5 3 3 false "v"]
           → 2 ≤ c ≤ 5.
Proof.
  apply (colormap_scale [Row 2 1 1 false "u"; Row 5 3 3 false "v"] ∅ true false).
  vm_compute. reflexivity.
Defined.

(** X11.  The polygons of the map are drawn in strictly ascending order of
    cluster identifier, each in the colour that the colormap gives to its
    cluster, and a cluster has a polygon exactly when it is not the noise
    cluster -1 and its records lie at three or more distinct positions
    (distinct as floats). *)
Theorem polygons_are_clusters sample cluster_top_tags show_points show_noise m :
  create_cluster_map sample cluster_top_tags show_points show_noise = Done m →
  ∃ vmin vmax ids,
    pg_color <$> polygons_of m = Paired vmin vmax <$> ids
    ∧ StronglySorted Z.lt ids
    ∧ ∀ c, c ∈ ids
           ↔ (c ≠ -1
              ∧ (3 ≤ length (Binary64.py_set (positions sample c)))%nat).
Proof.
  intros Hm.
  destruct (create_cluster_map_layers sample cluster_top_tags show_points
              show_noise) as (cm & Hfor & Heq).
  rewrite Heq in Hm. injection Hm as <-.
  rewrite polygons_of_layers.
  set (ids := filter (λ c, Binary64.convex_hull_xy (positions sample c) ≠ [])
                (cluster_ids_of sample)).
  assert (StronglySorted Z.lt ids ∧
          ∀ c, c ∈ ids
               ↔ (c ≠ -1 ∧
                  (3 ≤ length (Binary64.py_set (positions sample c)))%nat))
    as [Hsorted Hiff].
  { split.
    - apply Tags.StronglySorted_filter, cluster_ids_sorted.
    - intros c. unfold ids.
      rewrite list_elem_of_filter, elem_of_cluster_ids,
        Binary64.hull_empty_iff.
      split.
      + intros (? & ? & ?). split; [done|lia].
      + intros [? Hsz]. split; [lia|]. split; [done|].
        by apply positions_cluster. }
  destruct cm as [[vmin vmax]|].
  - exists vmin, vmax, ids. split; [|done]. apply polygon_colours.
  - exists 0, 0, ids. split; [|done].
    simpl in Hfor. unfold ids. by rewrite Hfor.
Qed.

Lemma polygons_are_clusters_witness :
  ∃ vmin vmax ids,
    pg_color <$> polygons_of
      [ColorMapLayer 2 2;
       PolygonLayer (Polygon [(0, 0); (0, 4); (4, 0)]%float (Paired 2 2 2)
                       "Cluster&nbsp;2&nbsp;(n=3)<br/>Tags: ");
       LayerControl]
    = Paired vmin vmax <$> ids
    ∧ StronglySorted Z.lt ids
    ∧ ∀ c, c ∈ ids
           ↔ (c ≠ -1
              ∧ (3 ≤ length (Binary64.py_set
                               (positions [Row 2 0 0 true "u1";
                                           Row 2 0 4 false "u2";
                                           Row 2 4 0 true "u3"] c)))%nat).
Proof.
  apply (polygons_are_clusters
           [Row 2 0 0 true "u1"; Row 2 0 4 false "u2"; Row 2 4 0 true "u3"]
           ∅ false false).
  vm_compute. reflexivity.
Defined.

(** X12.  Every vertex of a polygon of the map is the position, as
    (latitude, longitude) in floats, of a record of the polygon's cluster,
    and a polygon has two vertices at least. *)
Theorem polygon_vertices sample cluster_top_tags show_points show_noise m p
    vmin vmax c :
  create_cluster_map sample cluster_top_tags show_points show_noise = Done m →
  p ∈ polygons_of m → pg_color p = Paired vmin vmax c →
  (2 ≤ length (pg_locations p))%nat
  ∧ ∀ v, v ∈ pg_locations p
         → ∃ r, r ∈ sample ∧ cluster r = c
                ∧ v = (py_float (lat r), py_float (long r)).
Proof.
  intros Hm Hp Hcol.
  destruct (polygon_of_cluster _ _ _ _ _ _ _ _ _ Hm Hp Hcol)
    as (_ & Hne & ->).
  split.
  - rewrite length_fmap.
    by destruct (Binary64.hull_two_or_more (positions sample c)).
  - intros v ([x y] & -> & Hv%Binary64.hull_in_input)%list_elem_of_fmap.
    apply elem_of_positions in Hv as (r & ? & ? & [= -> ->]).
    by exists r.
Qed.

Lemma polygon_vertices_witness :
  (2 ≤ length [(0, 0); (0, 4); (4, 0)]%float)%nat
  ∧ ∀ v, v ∈ [(0, 0); (0, 4); (4, 0)]%float
         → ∃ r, r ∈ [Row 2 0 0 true "u1"; Row 2 0 4 false "u2";
                     Row 2 4 0 true "u3"]
                ∧ cluster r = 2 ∧ v = (py_float (lat r), py_float (long r)).
Proof.
  apply (polygon_vertices
           [Row 2 0 0 true "u1"; Row 2 0 4 false "u2"; Row 2 4 0 true "u3"]
           ∅ false false
           [ColorMapLayer 2 2;
            PolygonLayer (Polygon [(0, 0); (0, 4); (4, 0)]%float
                            (Paired 2 2 2)
                            "Cluster&nbsp;2&nbsp;(n=3)<br/>Tags: ");
            LayerControl]
           (Polygon [(0, 0); (0, 4); (4, 0)]%float (Paired 2 2 2)
              "Cluster&nbsp;2&nbsp;(n=3)<br/>Tags: ") 2 2 2).
  - vm_compute. reflexivity.
  - vm_compute. constructor.
  - reflexivity.
Defined.

(** X13.  When no rounding shows on the positions of a cluster, its
    polygon encloses the cluster: no record of the cluster lies strictly to
    the left of an edge between two consecutive vertices (the last one
    followed by the first), the positions being taken as (latitude,
    longitude) and in exact arithmetic.  In these coordinates the vertices
    run clockwise. *)
Theorem polygon_encloses_cluster k sample cluster_top_tags show_points
    show_noise m p vmin vmax c i a b r :
  create_cluster_map sample cluster_top_tags show_points show_noise = Done m →
  p ∈ polygons_of m → pg_color p = Paired vmin vmax c →
  Binary64.exact k (positions sample c) →
  pg_locations p !! i = Some a →
  pg_locations p !! ((i + 1) mod length (pg_locations p))%nat = Some b →
  r ∈ sample → cluster r = c →
  cross (Binary64.value k a) (Binary64.value k b)
    (Binary64.value k (py_float (lat r), py_float (long r))) ≤ 0.
Proof.
  intros Hm Hp Hcol Hex Ha Hb Hr Hc.
  destruct (polygon_of_cluster _ _ _ _ _ _ _ _ _ Hm Hp Hcol)
    as (_ & _ & Hloc).
  rewrite Hloc in Ha, Hb. rewrite length_fmap in Hb.
  apply list_lookup_fmap_Some_1 in Ha as (a' & -> & Ea).
  apply list_lookup_fmap_Some_1 in Hb as (b' & -> & Eb).
  assert ((py_float (long r), py_float (lat r)) ∈ positions sample c) as Hq.
  { apply elem_of_positions. by exists r. }
  pose proof (hull_encloses_input (Binary64.value k <$> positions sample c) i
                (Binary64.value k a') (Binary64.value k b')
                (Binary64.value k (py_float (long r), py_float (lat r))))
    as Hcross.
  rewrite <-(Binary64.value_hull k _ Hex), length_fmap in Hcross.
  specialize (Hcross (list_lookup_fmap_Some_2 _ _ _ _ Ea)
                (list_lookup_fmap_Some_2 _ _ _ _ Eb)
                (list_elem_of_fmap_2 _ _ _ Hq)).
  destruct a' as [ax ay], b' as [bx by'].
  pose proof (swap_cross (Binary64.value k (ax, ay))
                (Binary64.value k (bx, by'))
                (Binary64.value k (py_float (long r), py_float (lat r))))
    as Hsw.
  unfold Binary64.value in *. simpl in *. lia.
Qed.

Lemma polygon_encloses_cluster_witness :
  cross (Binary64.value 0 (0, 0)%float) (Binary64.value 0 (0, 4)%float)
    (Binary64.value 0 (py_float 1, py_float 1)) ≤ 0.
Proof.
  apply (polygon_encloses_cluster 0
           [Row 2 0 0 true "u1"; Row 2 0 4 false "u2"; Row 2 4 0 true "u3";
            Row 2 1 1 true "u4"]
           ∅ false false
           [ColorMapLayer 2 2;
            PolygonLayer (Polygon [(0, 0); (0, 4); (4, 0)]%float
                            (Paired 2 2 2)
                            "Cluster&nbsp;2&nbsp;(n=4)<br/>Tags: ");
            LayerControl]
           (Polygon [(0, 0); (0, 4); (4, 0)]%float (Paired 2 2 2)
              "Cluster&nbsp;2&nbsp;(n=4)<br/>Tags: ") 2 2 2 0%nat
           (0, 0)%float (0, 4)%float (Row 2 1 1 true "u4")).
  - vm_compute. reflexivity.
  - vm_compute. constructor.
  - reflexivity.
  - apply (bool_decide_unpack _). vm_compute. exact I.
  - reflexivity.
  - reflexivity.
  - do 3 right. constructor.
  - reflexivity.
Defined.

(** X14.  When no rounding shows on the positions of a cluster, its
    polygon has two vertices exactly when all these positions lie on one
    line; otherwise it has three or more. *)
Theorem polygon_degenerate k sample cluster_top_tags show_points show_noise m
    p vmin vmax c :
  create_cluster_map sample cluster_top_tags show_points show_noise = Done m →
  p ∈ polygons_of m → pg_color p = Paired vmin vmax c →
  Binary64.exact k (positions sample c) →
  (length (pg_locations p) = 2%nat
   ↔ collinear (Binary64.value k <$> positions sample c)).
Proof.
  intros Hm Hp Hcol Hex.
  destruct (polygon_of_cluster _ _ _ _ _ _ _ _ _ Hm Hp Hcol)
    as (_ & Hne & ->).
  rewrite length_fmap, <-(length_fmap (Binary64.value k)),
    (Binary64.value_hull k _ Hex).
  rewrite hull_two_iff_collinear. split; [by intros [_ ?]|].
  intros Hcol'. split; [|done].
  rewrite (Binary64.value_set_size k _ Hex).
  destruct (decide (length (Binary64.py_set (positions sample c)) < 3)%nat)
    as [Hsz|Hsz]; [|lia].
  by apply Binary64.hull_empty_iff in Hsz.
Qed.

Lemma polygon_degenerate_witness :
  length [(0, 0); (2, 2)]%float = 2%nat
  ↔ collinear
      (Binary64.value 0 <$> positions [Row 7 0 0 true "u1";
                                       Row 7 1 1 false "u2";
                                       Row 7 2 2 true "u3"] 7).
Proof.
  apply (polygon_degenerate 0
           [Row 7 0 0 true "u1"; Row 7 1 1 false "u2"; Row 7 2 2 true "u3"]
           ∅ false false
           [ColorMapLayer 7 7;
            PolygonLayer (Polygon [(0, 0); (2, 2)]%float (Paired 7 7 7)
                            "Cluster&nbsp;7&nbsp;(n=3)<br/>Tags: ");
            LayerControl]
           (Polygon [(0, 0); (2, 2)]%float (Paired 7 7 7)
              "Cluster&nbsp;7&nbsp;(n=3)<br/>Tags: ") 7 7 7).
  - vm_compute. reflexivity.
  - vm_compute. constructor.
  - reflexivity.
  - apply (bool_decide_unpack _). vm_compute. exact I.
Defined.

(** X15.  The map has feature groups only when [show_points] is set, and
    then exactly two: first the circles, one for every record of a similar
    year, then the squares, one for every other record, each marker at the
    (latitude, longitude) of its record and in the order of the table;
    records of the noise cluster -1 are left out unless [show_noise] is
    set. *)
Theorem markers_by_similarity sample cluster_top_tags show_points show_noise
    m :
  create_cluster_map sample cluster_top_tags show_points show_noise = Done m →
  ∃ sim non,
    groups_of m
    = (if show_points
       then [("Similar year (circles)", sim);
             ("Not similar year (squares)", non)]
       else [])
    ∧ Forall is_circle sim ∧ Forall is_square non
    ∧ marker_location <$> sim
      = (λ r, (lat r, long r))
        <$> filter (λ r, drawn show_noise r ∧ similar_year r = true) sample
    ∧ marker_location <$> non
      = (λ r, (lat r, long r))
        <$> filter (λ r, drawn show_noise r ∧ similar_year r = false) sample.
Proof.
  intros Hm.
  destruct (create_cluster_map_layers sample cluster_top_tags show_points
              show_noise) as (cm & Hfor & Heq).
  rewrite Heq in Hm. injection Hm as <-.
  rewrite groups_of_layers.
  exists (omap (circle_of show_noise cm) sample),
         (omap (square_of show_noise cm) sample).
  destruct (circles_spec show_noise cm sample) as (? & ? & _).
  destruct (squares_spec show_noise cm sample) as (? & ? & _).
  split; [by destruct show_points|done].
Qed.

Lemma markers_by_similarity_witness :
  ∃ sim non,
    groups_of
      [FeatureGroup "Similar year (circles)"
         [CircleMarker (9, 8) Gray
            "Cluster:&nbsp;-1<br/><a href='u' target='_blank'>link</a>"];
       FeatureGroup "Not similar year (squares)" []; LayerControl]
    = [("Similar year (circles)", sim); ("Not similar year (squares)", non)]
    ∧ Forall is_circle sim ∧ Forall is_square non
    ∧ marker_location <$> sim
      = (λ r, (lat r, long r))
        <$> filter (λ r, drawn true r ∧ similar_year r = true)
              [Row (-1) 9 8 true "u"]
    ∧ marker_location <$> non
      = (λ r, (lat r, long r))
        <$> filter (λ r, drawn true r ∧ similar_year r = false)
              [Row (-1) 9 8 true "u"].
Proof.
  apply (markers_by_similarity [Row (-1) 9 8 true "u"] ∅ true true).
  vm_compute. reflexivity.
Defined.

(** X16.  Every colour that the colormap gives on the map, to a polygon or
    to a marker, is the colour of a cluster of the table other than -1,
    taken from the colormap that the map shows, and the cluster lies within
    the scale of that colormap. *)
Theorem colours_within_scale sample cluster_top_tags show_points show_noise m
    vmin vmax c :
  create_cluster_map sample cluster_top_tags show_points show_noise = Done m →
  Paired vmin vmax c ∈ colours_of m →
  ColorMapLayer vmin vmax ∈ m
  ∧ vmin ≤ c ≤ vmax ∧ c ≠ -1 ∧ c ∈ cluster <$> sample.
Proof.
  intros Hm Hc.
  destruct (create_cluster_map_layers sample cluster_top_tags show_points
              show_noise) as (cm & Hfor & Heq).
  rewrite Heq in Hm. injection Hm as <-.
  rewrite colormap_layer_iff. rewrite colours_of_layers in Hc.
  assert (cm = Some (vmin, vmax) ∧ c ∈ cluster_ids_of sample) as [-> Hin].
  { apply elem_of_app in Hc as [Hc|Hc].
    - apply list_elem_of_fmap in Hc as (p & Hcol & Hp).
      apply list_elem_of_omap in Hp as (c' & Hc' & Hdraw).
      apply draw_polygon_Some in Hdraw as (_ & _ & Hcol').
      rewrite <-Hcol in Hcol'. destruct cm as [[a b]|]; [|done].
      by injection Hcol' as -> -> ->.
    - apply marker_colours in Hc as (_ & r & Hr & _ & Hcol).
      unfold marker_colour_of in Hcol.
      destruct (bool_decide (cluster r = -1)) eqn:E; [done|].
      apply bool_decide_eq_false in E.
      destruct cm as [[a b]|]; [|done]. injection Hcol as -> -> ->.
      split; [done|]. apply elem_of_cluster_ids. split; [done|].
      by apply list_elem_of_fmap_2. }
  destruct Hfor as (_ & _ & Hall).
  apply elem_of_cluster_ids in Hin as Hin'. destruct Hin' as [? ?].
  split; [done|]. split; [by apply Hall|done].
Qed.

Lemma colours_within_scale_witness :
  ColorMapLayer 2 5
  ∈ [ColorMapLayer 2 5; FeatureGroup "Similar year (circles)" [];
     FeatureGroup "Not similar year (squares)"
       [RegularPolygonMarker (1, 1) (Paired 2 5 2)
          "Cluster:&nbsp;2<br/><a href='u' target='_blank'>link</a>";
        RegularPolygonMarker (3, 3) (Paired 2 5 5)
          "Cluster:&nbsp;5<br/><a href='v' target='_blank'>link</a>"];
     LayerControl]
  ∧ 2 ≤ 5 ≤ 5 ∧ 5 ≠ -1
  ∧ 5 ∈ cluster <$> [Row 2 1 1 false "u"; Row 5 3 3 false "v"].
Proof.
  apply (colours_within_scale [Row 2 1 1 false "u"; Row 5 3 3 false "v"] ∅
           true false).
  - vm_compute. reflexivity.
  - vm_compute. do 2 constructor.
Defined.



(** ** The two functions together *)

Lemma polygon_tooltip sample cluster_top_tags show_points show_noise m p
    vmin vmax c :
  create_cluster_map sample cluster_top_tags show_points show_noise = Done m →
  p ∈ polygons_of m → pg_color p = Paired vmin vmax c →
  c ∈ cluster_ids_of sample
  ∧ pg_tooltip p
    = "Cluster&nbsp;" +:+ pretty c +:+ "&nbsp;(n="
      +:+ pretty (length (filter (λ r, cluster r = c) sample))
      +:+ ")<br/>Tags: "
      +:+ py_join ", " (default [] (cluster_top_tags !! c)).
Proof.
  intros Hm Hp Hcol.
  destruct (create_cluster_map_layers sample cluster_top_tags show_points
              show_noise) as (cm & Hfor & Heq).
  rewrite Heq in Hm. injection Hm as <-.
  rewrite polygons_of_layers in Hp.
  apply list_elem_of_omap in Hp as (c' & Hc' & Hdraw).
  pose proof (draw_polygon_Some _ _ _ _ _ Hdraw) as (_ & _ & Hcol').
  rewrite Hcol in Hcol'. destruct cm as [[a b]|]; [|done].
  injection Hcol' as -> -> ->. split; [done|].
  unfold draw_polygon in Hdraw. cbv zeta in Hdraw.
  destruct (Binary64.convex_hull_xy _); [done|]. by injection Hdraw as <-.
Qed.

(** X18.  When the dictionary of tags is the one that
    [get_cluster_top_tags] computes from the same table, every polygon of
    the map finds its cluster in the dictionary: its tooltip shows the
    cluster identifier, the number of records of the cluster and the tags
    of that entry, and the default of the lookup is never used. *)
Theorem tooltip_of_top_tags tagged tags_to_delete n sample show_points
    show_noise m p vmin vmax c :
  Tags.cluster <$> tagged = cluster <$> sample →
  create_cluster_map sample
    (Tags.get_cluster_top_tags tagged tags_to_delete n) show_points show_noise
  = Done m →
  p ∈ polygons_of m → pg_color p = Paired vmin vmax c →
  ∃ top,
    Tags.get_cluster_top_tags tagged tags_to_delete n !! c = Some top
    ∧ pg_tooltip p
      = "Cluster&nbsp;" +:+ pretty c +:+ "&nbsp;(n="
        +:+ pretty (length (filter (λ r, cluster r = c) sample))
        +:+ ")<br/>Tags: " +:+ py_join ", " top.
Proof.
  intros Hsame Hm Hp Hcol.
  destruct (polygon_tooltip _ _ _ _ _ _ _ _ _ Hm Hp Hcol) as [Hc ->].
  apply elem_of_cluster_ids in Hc as [Hc Hin]. rewrite <-Hsame in Hin.
  unfold Tags.get_cluster_top_tags.
  rewrite (Tags.top_tags_foldl tagged tags_to_delete n _ ∅ c Hc)
    by (by apply Tags.elem_of_unique).
  by eexists.
Qed.

Lemma tooltip_of_top_tags_witness :
  ∃ top,
    Tags.get_cluster_top_tags
      [Tags.Row 2 (Tags.TagList ["a"; "b"]); Tags.Row 2 (Tags.TagList ["a"]);
       Tags.Row 2 Tags.NotAList] ∅ 5 !! 2 = Some top
    ∧ "Cluster&nbsp;2&nbsp;(n=3)<br/>Tags: a, b"
      = "Cluster&nbsp;" +:+ pretty 2 +:+ "&nbsp;(n="
        +:+ pretty (length (filter (λ r, cluster r = 2)
                              [Row 2 0 0 true "u1"; Row 2 0 4 false "u2";
                               Row 2 4 0 true "u3"]))
        +:+ ")<br/>Tags: " +:+ py_join ", " top.
Proof.
  apply (tooltip_of_top_tags
           [Tags.Row 2 (Tags.TagList ["a"; "b"]);
            Tags.Row 2 (Tags.TagList ["a"]); Tags.Row 2 Tags.NotAList]
           ∅ 5
           [Row 2 0 0 true "u1"; Row 2 0 4 false "u2"; Row 2 4 0 true "u3"]
           false false
           [ColorMapLayer 2 2;
            PolygonLayer (Polygon [(0, 0); (0, 4); (4, 0)]%float
                            (Paired 2 2 2)
                            "Cluster&nbsp;2&nbsp;(n=3)<br/>Tags: a, b");
            LayerControl]
           (Polygon [(0, 0); (0, 4); (4, 0)]%float (Paired 2 2 2)
              "Cluster&nbsp;2&nbsp;(n=3)<br/>Tags: a, b") 2 2 2).
  - reflexivity.
  - vm_compute. reflexivity.
  - vm_compute. constructor.
  - reflexivity.
Defined.

End ClusterMap.
